(** * python/tensorstore/future.cc: the Promise/Future binding

    A shallow embedding of the logic of [future.cc]: the wait deadline, the
    interruptible wait loop, the done-callback vector, the intrusive list of
    cancel callbacks and the asyncio bridge.  Python objects, the clock and
    the callables a user registers are outside the file; they appear here as
    small data types or as Section variables. *)

From stdpp Require Import base option list gmap.

(** ** Python objects *)

(** Exception classes the file names, and any other class. *)
Inductive PyClass :=
  | CancelledErrorCls      (* asyncio.CancelledError *)
  | TimeoutErrorCls        (* builtins.TimeoutError *)
  | KeyboardInterruptCls   (* raised by the SIGINT handler *)
  | SystemErrorCls         (* builtins.SystemError *)
  | InvalidStateErrorCls   (* asyncio.InvalidStateError *)
  | TypeErrorCls           (* builtins.TypeError *)
  | StopIterationCls       (* builtins.StopIteration *)
  | UserExcCls (id : nat)  (* any other exception class, none derived from
                              StopIteration *)
  | NonExcCls (id : nat).  (* a class that is not an exception class *)

(** A Python object.  [PyOpaque] stands for any value whose content the file
    never inspects; its address is its identity. *)
Inductive PyObject :=
  | PyNone
  | PyOpaque (addr : nat)
  | PyType (cls : PyClass)
  | PyExcInstance (cls : PyClass) (arg : PyObject).

Definition is_none (o : PyObject) : bool :=
  match o with PyNone => true | _ => false end.

(** [ob_type] of an object. *)
Definition Py_TYPE (o : PyObject) : PyObject :=
  match o with
  | PyExcInstance cls _ => PyType cls
  | PyNone => PyType (NonExcCls 0)
  | PyOpaque _ => PyType (NonExcCls 1)
  | PyType _ => PyType (NonExcCls 2)
  end.

(** [PyExceptionClass_Check]. *)
Definition PyExceptionClass_Check (ty : PyObject) : bool :=
  match ty with
  | PyType (NonExcCls _) => false
  | PyType _ => true
  | _ => false
  end.

(** [PyExceptionInstance_Check]. *)
Definition PyExceptionInstance_Check (o : PyObject) : bool :=
  match o with
  | PyExcInstance cls _ => PyExceptionClass_Check (PyType cls)
  | _ => false
  end.

(** Whether the object is an instance of [StopIteration]. *)
Definition is_StopIteration (o : PyObject) : bool :=
  match o with
  | PyExcInstance StopIterationCls _ => true
  | _ => false
  end.

(** The error indicator: the (type, value) pair [PyErr_Fetch] hands out; the
    traceback of an error that was set and not yet raised is null. *)
Definition PyErr_SetObject (ty val : PyObject) : PyObject * PyObject :=
  if PyExceptionClass_Check ty then (ty, val)
  else (PyType SystemErrorCls, PyOpaque 0).

(** What a call ends in: a normal return or a raised Python error
    ([throw py::error_already_set()] with the error indicator holding [e]). *)
Inductive Outcome (A : Type) :=
| Returned (a : A)
| Raised (e : PyObject).
Arguments Returned {A} a.
Arguments Raised {A} e.

(** [ThrowCancelledError]: [PyErr_SetNone(asyncio.CancelledError)]. *)
Definition ThrowCancelledError {A} : Outcome A := Raised (PyType CancelledErrorCls).

(** [ThrowTimeoutError]: [PyErr_SetNone(builtins.TimeoutError)]. *)
Definition ThrowTimeoutError {A} : Outcome A := Raised (PyType TimeoutErrorCls).

(** [GetCancelledError]: the instance [asyncio.CancelledError(None)]. *)
Definition GetCancelledError : PyObject := PyExcInstance CancelledErrorCls PyNone.

(** ** Wait deadline *)

Module absl.

(** [absl::Time]: an instant in ticks since the Unix epoch, or one of the
    two infinite instants. *)
Inductive Time :=
  | InfinitePast
  | At (ticks : Z)
  | InfiniteFuture.

Definition UnixEpoch : Time := At 0%Z.

(** [operator<] on [absl::Time]. *)
Definition lt (a b : Time) : bool :=
  match a, b with
  | InfinitePast, InfinitePast => false
  | InfinitePast, _ => true
  | At _, InfinitePast => false
  | At x, At y => bool_decide (x < y)%Z
  | At _, InfiniteFuture => true
  | InfiniteFuture, _ => false
  end.

Definition le (a b : Time) : bool := negb (lt b a).

End absl.

(** [std::min(a, b)]: [b] when [b < a], else [a]. *)
Definition std_min (a b : absl.Time) : absl.Time :=
  if absl.lt b a then b else a.

Section WaitDeadline.
(** The C++ [double], [absl::Seconds(double)], [absl::Time + absl::Duration]
    and the clock reading [absl::Now()] belong to the platform. *)
Variable double : Type.
Variable Duration : Type.
Variable Seconds : double → Duration.
Variable time_plus : absl.Time → Duration → absl.Time.
Variable Now : absl.Time.

Definition GetWaitDeadline (timeout deadline : option double) : absl.Time :=
  let deadline_time := absl.InfiniteFuture in
  let deadline_time :=
    match deadline with
    | Some d => time_plus absl.UnixEpoch (Seconds d)
    | None => deadline_time
    end in
  let deadline_time :=
    match timeout with
    | Some t => std_min deadline_time (time_plus Now (Seconds t))
    | None => deadline_time
    end in
  deadline_time.

End WaitDeadline.

(** ** The interruptible wait loop *)

Inductive ScopedEventWaitResult :=
  | kSuccess
  | kInterrupt
  | kTimeout.

(** What the waiting thread observes in one turn of the loop: the result of
    [event.Wait(deadline)], what [python_future->cancelled()] answers once the
    GIL is held again, and the exception a pending signal's handler raises
    when [PyErr_CheckSignals] runs it (none when no signal is pending). *)
Record WaitIteration := {
  wait_result : ScopedEventWaitResult;
  future_cancelled : bool;
  pending_signal : option PyObject;
}.

(** [PyErr_CheckSignals()]: 0, or -1 with the error indicator set. *)
Definition PyErr_CheckSignals (it : WaitIteration) : Z :=
  match pending_signal it with
  | Some _ => (-1)%Z
  | None => 0%Z
  end.

(** The error indicator after [PyErr_CheckSignals]. *)
Definition error_indicator (it : WaitIteration) : PyObject :=
  default PyNone (pending_signal it).

(** [InterruptibleWaitImpl].  [python_future] says whether the pointer is
    non-null.  The event, the cancel-callback token and the listener
    registration are scoped objects released on every exit; they decide when
    [Wait] wakes, which the observations supply.  The loop consumes one
    observation per turn; [None] means the thread is still blocked when the
    observations end. *)
Fixpoint InterruptibleWaitImpl (python_future : bool) (obs : list WaitIteration)
    : option (Outcome unit) :=
  match obs with
  | [] => None
  | it :: obs' =>
      match wait_result it with
      | kSuccess =>
          if python_future && future_cancelled it
          then Some ThrowCancelledError
          else Some (Returned tt)
      | kTimeout => Some ThrowTimeoutError
      | kInterrupt =>
          if bool_decide (PyErr_CheckSignals it = (-1)%Z)
          then Some (Raised (error_indicator it))
          else InterruptibleWaitImpl python_future obs'
      end
  end.


(** ** The shared result and the Python-side future *)

(** [PythonValueOrException]: a value, or the (type, value, traceback) triple
    of a fetched error; a null handle is [None]. *)
Record PythonValueOrException := {
  value : option PyObject;
  error_type : option PyObject;
  error_value : option PyObject;
  error_traceback : option PyObject;
}.

(** The result slot shared by the promise and the future. *)
Inductive ResultSlot :=
  | Unset
  | Completed (v : PythonValueOrException)
  | Cancelled.

(** How a call of a registered Python callable ends: it returns, it raises a
    Python error ([pybind11::error_already_set]), or some other C++ exception
    escapes. *)
Inductive CallEnd :=
  | CallReturns
  | CallRaises (e : PyObject)
  | CallThrows.

(** What dispatch leaves behind for an observer. *)
Inductive Event :=
  | DoneInvoked (cb : nat)       (* callback(py_self) *)
  | Unraisable (e : PyObject)    (* PyErr_WriteUnraisable after e.restore() *)
  | LogUnexpected                (* TENSORSTORE_LOG("Unexpected exception ...") *)
  | CancelInvoked (node : nat).  (* CancelCallback::callback() *)

(** What a cancel callback does besides notifying its waiter: nothing to the
    list, or its owner destroys the registration token from inside the call. *)
Inductive CancelAction :=
  | Notify
  | UnlinkSelf.

(** [CancelCallbackBase] with the [callback] member of [CancelCallback]; the
    list head is a bare base object and has none. *)
Record Node := {
  next : nat;
  prev : nat;
  callback : option CancelAction;
}.

Definition done_invocations (lg : list Event) : list nat :=
  omap (λ e, match e with DoneInvoked cb => Some cb | _ => None end) lg.

Definition cancel_invocations (lg : list Event) : list nat :=
  omap (λ e, match e with CancelInvoked n => Some n | _ => None end) lg.

(** ** The intrusive list of cancel callbacks *)

(** Modelled from the spec: [intrusive_linked_list::Initialize]
    (tensorstore/internal/intrusive_linked_list.h is not part of the source
    at hand): the head of an empty list links to itself. *)
Definition Initialize (head : nat) (h : gmap nat Node) : gmap nat Node :=
  <[head := {| next := head; prev := head; callback := None |}]> h.

(** Modelled from the spec: the [CancelCallback] constructor
    (python/tensorstore/future.h and intrusive_linked_list.h are not part of
    the source at hand): registration appends the node at the tail, just
    before the head. *)
Definition CancelCallback_new (head node : nat) (a : CancelAction)
    (h : gmap nat Node) : option (gmap nat Node) :=
  hd ← h !! head;
  let h1 := <[node := {| next := head; prev := prev hd; callback := Some a |}]> h in
  tl ← h1 !! prev hd;
  let h2 := <[prev hd := {| next := node; prev := prev tl; callback := callback tl |}]> h1 in
  hd' ← h2 !! head;
  Some (<[head := {| next := next hd'; prev := node; callback := callback hd' |}]> h2).

(** Modelled from the spec: [intrusive_linked_list::Remove] (not part of the
    source at hand): the neighbours of the node are linked to each other. *)
Definition Remove (node : nat) (h : gmap nat Node) : option (gmap nat Node) :=
  nd ← h !! node;
  nx ← h !! next nd;
  let h1 := <[next nd := {| next := next nx; prev := prev nd; callback := callback nx |}]> h in
  pv ← h1 !! prev nd;
  Some (<[prev nd := {| next := next nd; prev := prev pv; callback := callback pv |}]> h1).

(** Modelled from the spec: the [CancelCallback] destructor (future.h is not
    part of the source at hand): the token unlinks its node, whose storage
    then ends. *)
Definition CancelCallback_destroy (node : nat) (h : gmap nat Node)
    : option (gmap nat Node) :=
  h' ← Remove node h;
  Some (delete node h').

Definition run_cancel_action (a : CancelAction) (node : nat) (h : gmap nat Node)
    : option (gmap nat Node) :=
  match a with
  | Notify => Some h
  | UnlinkSelf => CancelCallback_destroy node h
  end.

(** The loop of [RunCancelCallbacks] from the node [cur], one unit of fuel per
    executed body; a dangling pointer or spent fuel gives [None]. *)
Fixpoint RunCancelCallbacks_loop (fuel : nat) (head cur : nat)
    (st : gmap nat Node * list Event) : option (gmap nat Node * list Event) :=
  if bool_decide (cur = head) then Some st
  else
    match fuel with
    | O => None
    | S fuel' =>
        nd ← st.1 !! cur;
        let next_ := next nd in
        a ← callback nd;
        h' ← run_cancel_action a cur st.1;
        RunCancelCallbacks_loop fuel' head next_ (h', st.2 ++ [CancelInvoked cur])
    end.

(** A well-formed segment: starting at [p], whose predecessor is [pp], the
    [next] pointers run through exactly the nodes of [l] and then reach [q];
    every node points back to the one before it and carries a callback. *)
Fixpoint chain (h : gmap nat Node) (pp p : nat) (l : list nat) (q : nat) : Prop :=
  match l with
  | [] => p = q
  | n :: l' =>
      p = n ∧ ∃ nd, h !! n = Some nd ∧ prev nd = pp ∧ is_Some (callback nd)
                    ∧ chain h n (next nd) l' q
  end.

(** The circular list with head [head] holds exactly the nodes [l], in
    order. *)
Definition cancel_list (h : gmap nat Node) (head : nat) (l : list nat) : Prop :=
  NoDup (head :: l) ∧
  ∃ hd, h !! head = Some hd ∧ chain h head (next hd) l head
        ∧ prev hd = default head (last l).

(** ** The future object and its operations *)

(** [std::remove_if] over a vector: the elements to keep are moved to the
    front in order; [first] scans, [result] is the write position, [n] the
    number of elements left to scan.  Returns the vector and the new logical
    end. *)
Fixpoint remove_if_loop (pred : nat → bool) (n : nat) (first result : nat)
    (v : list nat) : list nat * nat :=
  match n with
  | O => (v, result)
  | S n' =>
      match v !! first with
      | Some x =>
          if pred x
          then remove_if_loop pred n' (S first) result v
          else remove_if_loop pred n' (S first) (S result) (<[result := x]> v)
      | None => (v, result)
      end
  end.

Definition std_remove_if (pred : nat → bool) (v : list nat) : list nat * nat :=
  remove_if_loop pred (length v) 0 0 v.

Section Host.
(** The part of the host runtime that registered callables act on, and what
    calling the callable at a given address does: how the call ends and what
    it changes in the host. *)
Variable World : Type.
Variable py_outcome : nat → CallEnd.
Variable py_effect : nat → World → World.

(** [PythonFutureBase] together with the shared slot its [future_] refers
    to.  A callable is identified by the address of its Python object. *)
Record PythonFuture := {
  slot : ResultSlot;
  callbacks_ : list nat;          (* std::vector<pybind11::object> *)
  registration_ : bool;           (* the listener registration is armed *)
  heap : gmap nat Node;           (* storage of the cancel-callback nodes *)
  cancel_callbacks_ : nat;        (* address of the list head member *)
  world : World;
  log : list Event;
}.

Definition with_slot (s : ResultSlot) (f : PythonFuture) : PythonFuture :=
  {| slot := s; callbacks_ := callbacks_ f; registration_ := registration_ f;
     heap := heap f; cancel_callbacks_ := cancel_callbacks_ f;
     world := world f; log := log f |}.

Definition with_callbacks (c : list nat) (f : PythonFuture) : PythonFuture :=
  {| slot := slot f; callbacks_ := c; registration_ := registration_ f;
     heap := heap f; cancel_callbacks_ := cancel_callbacks_ f;
     world := world f; log := log f |}.

Definition with_registration (r : bool) (f : PythonFuture) : PythonFuture :=
  {| slot := slot f; callbacks_ := callbacks_ f; registration_ := r;
     heap := heap f; cancel_callbacks_ := cancel_callbacks_ f;
     world := world f; log := log f |}.

Definition with_cancel_run (st : gmap nat Node * list Event) (f : PythonFuture)
    : PythonFuture :=
  {| slot := slot f; callbacks_ := callbacks_ f; registration_ := registration_ f;
     heap := st.1; cancel_callbacks_ := cancel_callbacks_ f;
     world := world f; log := st.2 |}.

Definition with_world (w : World) (f : PythonFuture) : PythonFuture :=
  {| slot := slot f; callbacks_ := callbacks_ f; registration_ := registration_ f;
     heap := heap f; cancel_callbacks_ := cancel_callbacks_ f;
     world := w; log := log f |}.

Definition with_call (w : World) (evs : list Event) (f : PythonFuture)
    : PythonFuture :=
  {| slot := slot f; callbacks_ := callbacks_ f; registration_ := registration_ f;
     heap := heap f; cancel_callbacks_ := cancel_callbacks_ f;
     world := w; log := log f ++ evs |}.

(** Modelled from the spec: [PythonFuture<T>::done] (future.h is not part of
    the source at hand): true iff not pending. *)
Definition done (f : PythonFuture) : bool :=
  match slot f with Unset => false | _ => true end.

(** Modelled from the spec: [PythonFuture<T>::cancelled] (future.h is not
    part of the source at hand): true iff the state is cancelled. *)
Definition cancelled (f : PythonFuture) : bool :=
  match slot f with Cancelled => true | _ => false end.

(** [PythonFutureBase::remove_done_callback]. *)
Definition remove_done_callback (cb : nat) (f : PythonFuture)
    : PythonFuture * nat :=
  let '(v, it) := std_remove_if (λ h, bool_decide (h = cb)) (callbacks_ f) in
  let num_removed := (length v - it) in
  let f1 := with_callbacks (take it v) f in          (* erase(it, end) *)
  let f2 := match callbacks_ f1 with
            | [] => with_registration false f1       (* registration_.Unregister() *)
            | _ :: _ => f1
            end in
  (f2, num_removed).

(** One turn of the loop of [RunCallbacks]: the call, and the two [catch]
    clauses. *)
Definition invoke_logged (f : PythonFuture) (cb : nat) : PythonFuture :=
  let w := py_effect cb (world f) in
  match py_outcome cb with
  | CallReturns => with_call w [DoneInvoked cb] f
  | CallRaises e => with_call w [DoneInvoked cb; Unraisable e] f
  | CallThrows => with_call w [DoneInvoked cb; LogUnexpected] f
  end.

(** [PythonFutureBase::RunCallbacks]: the vector is moved out, then every
    element is called. *)
Definition RunCallbacks (f : PythonFuture) : PythonFuture :=
  let callbacks := callbacks_ f in
  foldl invoke_logged (with_callbacks [] f) callbacks.

(** [PythonFutureBase::RunCancelCallbacks]: from [cancel_callbacks_.next]
    round to the head.  A well-formed list has fewer nodes than the storage
    has cells, which bounds the turns of the loop. *)
Definition RunCancelCallbacks (f : PythonFuture) : option PythonFuture :=
  hd ← heap f !! cancel_callbacks_ f;
  st ← RunCancelCallbacks_loop (size (heap f)) (cancel_callbacks_ f) (next hd)
         (heap f, log f);
  Some (with_cancel_run st f).

(** Modelled from the spec: [Promise<T>::SetResult] (tensorstore/util/future.h
    is not part of the source at hand): writes the result if the slot is
    pending, which triggers the done-callback dispatch; otherwise nothing. *)
Definition SetResult (v : PythonValueOrException) (f : PythonFuture)
    : PythonFuture :=
  match slot f with
  | Unset => RunCallbacks (with_slot (Completed v) f)
  | _ => f
  end.

(** The [set_result] method of [DefinePromiseAttributes]. *)
Definition set_result (result : PyObject) (f : PythonFuture) : PythonFuture :=
  SetResult {| value := Some result; error_type := None;
               error_value := None; error_traceback := None |} f.

(** The [set_exception] method of [DefinePromiseAttributes]:
    [PyErr_SetObject] with the type of the object, then [PyErr_Fetch]. *)
Definition set_exception (exc : PyObject) (f : PythonFuture) : PythonFuture :=
  let ind := PyErr_SetObject (Py_TYPE exc) exc in
  let v := {| value := None; error_type := Some ind.1;
              error_value := Some ind.2; error_traceback := None |} in
  SetResult v f.

(** Modelled from the spec: [PythonFuture<T>::add_done_callback] (future.h is
    not part of the source at hand): appends; if the slot is already
    terminal the callable is invoked at once instead of being stored, and
    how that call ends is what the caller sees. *)
Definition add_done_callback (cb : nat) (f : PythonFuture)
    : PythonFuture * CallEnd :=
  if done f
  then (with_call (py_effect cb (world f)) [DoneInvoked cb] f, py_outcome cb)
  else (with_callbacks (callbacks_ f ++ [cb]) f, CallReturns).

(** Modelled from the spec: [PythonFuture<T>::cancel] (future.h is not part
    of the source at hand): if pending, the state becomes cancelled, the
    cancel callbacks fire, then the done callbacks; else nothing. *)
Definition cancel (f : PythonFuture) : option PythonFuture :=
  if done f then Some f
  else
    f' ← RunCancelCallbacks (with_slot Cancelled f);
    Some (RunCallbacks f').

(** [type_caster<PythonValueOrException>::cast]: the value, or the stored
    error restored and thrown. *)
Definition cast (result : PythonValueOrException) : Outcome PyObject :=
  match value result with
  | None => Raised (default (default PyNone (error_type result)) (error_value result))
  | Some v => Returned v
  end.

(** Modelled from the spec: [PythonFuture<T>::result] (future.h is not part
    of the source at hand): on a cancelled channel fails with a cancellation
    error, on an error re-raises it, else returns the value.  A pending
    future blocks in [InterruptibleWaitImpl]: [None] here. *)
Definition result (f : PythonFuture) : option (Outcome PyObject) :=
  match slot f with
  | Unset => None
  | Cancelled => Some ThrowCancelledError
  | Completed v => Some (cast v)
  end.

(** Modelled from the spec: [PythonFuture<T>::exception] (future.h is not
    part of the source at hand): as [result], but the error (or none) is
    returned instead of raised; for a cancelled channel that is the object
    [GetCancelledError] builds. *)
Definition exception (f : PythonFuture) : option PyObject :=
  match slot f with
  | Unset => None
  | Cancelled => Some GetCancelledError
  | Completed v =>
      match value v with
      | Some _ => Some PyNone
      | None => Some (default (default PyNone (error_type v)) (error_value v))
      end
  end.

(** The calls a program makes on one promise/future pair. *)
Inductive Op :=
  | OpAddDone (cb : nat)
  | OpRemoveDone (cb : nat)
  | OpSetResult (v : PyObject)
  | OpSetException (e : PyObject)
  | OpCancel.

Definition step (f : PythonFuture) (op : Op) : option PythonFuture :=
  match op with
  | OpAddDone cb => Some (add_done_callback cb f).1
  | OpRemoveDone cb => Some (remove_done_callback cb f).1
  | OpSetResult v => Some (set_result v f)
  | OpSetException e => Some (set_exception e f)
  | OpCancel => cancel f
  end.

Fixpoint run (ops : list Op) (f : PythonFuture) : option PythonFuture :=
  match ops with
  | [] => Some f
  | op :: ops' => f' ← step f op; run ops' f'
  end.

Definition added (ops : list Op) : list nat :=
  omap (λ op, match op with OpAddDone cb => Some cb | _ => None end) ops.

Definition is_remove (op : Op) : bool :=
  match op with OpRemoveDone _ => true | _ => false end.

(** A fresh pair, as [Promise.new] makes it: pending, nothing registered,
    the cancel list empty. *)
Definition new_future (head : nat) (w : World) : PythonFuture :=
  {| slot := Unset; callbacks_ := []; registration_ := false;
     heap := Initialize head ∅; cancel_callbacks_ := head;
     world := w; log := [] |}.

End Host.

Arguments slot {World} _.
Arguments callbacks_ {World} _.
Arguments registration_ {World} _.
Arguments heap {World} _.
Arguments cancel_callbacks_ {World} _.
Arguments world {World} _.
Arguments log {World} _.
Arguments with_slot {World} s f.
Arguments with_callbacks {World} c f.
Arguments with_registration {World} r f.
Arguments with_cancel_run {World} st f.
Arguments with_world {World} w f.
Arguments with_call {World} w evs f.
Arguments done {World} f.
Arguments cancelled {World} f.
Arguments remove_done_callback {World} cb f.
Arguments invoke_logged {World} py_outcome py_effect f cb.
Arguments RunCallbacks {World} py_outcome py_effect f.
Arguments RunCancelCallbacks {World} f.
Arguments SetResult {World} py_outcome py_effect v f.
Arguments set_result {World} py_outcome py_effect result f.
Arguments set_exception {World} py_outcome py_effect exc f.
Arguments add_done_callback {World} py_outcome py_effect cb f.
Arguments cancel {World} py_outcome py_effect f.
Arguments result {World} f.
Arguments exception {World} f.
Arguments step {World} py_outcome py_effect f op.
Arguments run {World} py_outcome py_effect ops f.
Arguments new_future {World} head w.

(** ** The asyncio bridge *)

(** Modelled from the spec: the host loop's single-assignment future
    ([asyncio.Future], outside this repository). *)
Inductive Awaitable :=
  | APending
  | ACancelled
  | AException (e : PyObject)
  | AResult (v : PyObject).

(** The two functions [get_await_result] hands to the loop: the inner lambda
    completing the awaitable, and the reverse callback cancelling the
    source. *)
Inductive Closure :=
  | CompleteAwaitable
  | CancelSource.

(** The event loop as far as one awaitable is concerned: the awaitable, the
    done callbacks registered on it, and the queue of calls the loop is to
    make. *)
Record Loop := {
  awaitable_future : Awaitable;
  awaitable_callbacks : list Closure;
  ready : list Closure;
}.

Definition aw_done (a : Awaitable) : bool :=
  match a with APending => false | _ => true end.

(** [loop.call_soon_threadsafe]. *)
Definition call_soon_threadsafe (c : Closure) (lp : Loop) : Loop :=
  {| awaitable_future := awaitable_future lp;
     awaitable_callbacks := awaitable_callbacks lp;
     ready := ready lp ++ [c] |}.

(** Completion of the awaitable: its callbacks are handed to the loop. *)
Definition aw_complete (a : Awaitable) (lp : Loop) : Loop :=
  {| awaitable_future := a;
     awaitable_callbacks := [];
     ready := ready lp ++ awaitable_callbacks lp |}.

Definition aw_cancel (lp : Loop) : Loop :=
  if aw_done (awaitable_future lp) then lp else aw_complete ACancelled lp.

(** [asyncio.Future.set_exception] (the host's): refused on a done
    awaitable; an exception class is instantiated first; an object that is
    not an exception instance, and an instance of [StopIteration], are
    refused with [TypeError] and leave the awaitable as it was. *)
Definition aw_set_exception (e : PyObject) (lp : Loop) : Outcome Loop :=
  if aw_done (awaitable_future lp)
  then Raised (PyExcInstance InvalidStateErrorCls PyNone)
  else
    let exc_val :=
      match e with
      | PyType cls => if PyExceptionClass_Check e then PyExcInstance cls PyNone else e
      | _ => e
      end in
    if negb (PyExceptionInstance_Check exc_val)
    then Raised (PyExcInstance TypeErrorCls PyNone)
    else if is_StopIteration exc_val
    then Raised (PyExcInstance TypeErrorCls PyNone)
    else Returned (aw_complete (AException exc_val) lp).

Definition aw_set_result (v : PyObject) (lp : Loop) : Outcome Loop :=
  if aw_done (awaitable_future lp)
  then Raised (PyExcInstance InvalidStateErrorCls PyNone)
  else Returned (aw_complete (AResult v) lp).

Definition aw_add_done_callback (c : Closure) (lp : Loop) : Loop :=
  if aw_done (awaitable_future lp)
  then call_soon_threadsafe c lp
  else {| awaitable_future := awaitable_future lp;
          awaitable_callbacks := awaitable_callbacks lp ++ [c];
          ready := ready lp |}.

Definition with_ready (q : list Closure) (lp : Loop) : Loop :=
  {| awaitable_future := awaitable_future lp;
     awaitable_callbacks := awaitable_callbacks lp;
     ready := q |}.

Section Bridge.
(** The address of the [py::cpp_function] wrapping the outer lambda, and how
    the calls of every other callable end. *)
Variable bridge_cb : nat.
Variable user_outcome : nat → CallEnd.

(** The outer lambda returns once [call_soon_threadsafe] has returned. *)
Definition bridge_outcome (cb : nat) : CallEnd :=
  if bool_decide (cb = bridge_cb) then CallReturns else user_outcome cb.

(** The outer lambda: the inner one is handed to the loop, not run. *)
Definition bridge_effect (cb : nat) (lp : Loop) : Loop :=
  if bool_decide (cb = bridge_cb)
  then call_soon_threadsafe CompleteAwaitable lp
  else lp.

(** The inner lambda of [get_await_result], run by the loop with the source
    future and the awaitable. *)
Definition complete_awaitable (f : PythonFuture Loop)
    : option (Outcome (PythonFuture Loop)) :=
  if aw_done (awaitable_future (world f)) then Some (Returned f)
  else if cancelled f then Some (Returned (with_world (aw_cancel (world f)) f))
  else
    exc ← exception f;
    if negb (is_none exc)
    then Some (match aw_set_exception exc (world f) with
               | Returned lp => Returned (with_world lp f)
               | Raised e => Raised e
               end)
    else
      r ← result f;
      match r with
      | Raised e => Some (Raised e)
      | Returned v =>
          Some (match aw_set_result v (world f) with
                | Returned lp => Returned (with_world lp f)
                | Raised e => Raised e
                end)
      end.

(** [PythonFutureBase::get_await_result]: a fresh awaitable, the outer
    lambda registered on the source, the reverse callback registered on the
    awaitable. *)
Definition get_await_result (f : PythonFuture Loop) : Outcome (PythonFuture Loop) :=
  let f0 := with_world {| awaitable_future := APending;
                          awaitable_callbacks := [];
                          ready := ready (world f) |} f in
  let '(f1, r) := add_done_callback bridge_outcome bridge_effect bridge_cb f0 in
  match r with
  | CallReturns =>
      Returned (with_world (aw_add_done_callback CancelSource (world f1)) f1)
  | CallRaises e => Raised e
  | CallThrows => Raised (PyExcInstance SystemErrorCls PyNone)
  end.

(** The loop makes the first call of its queue.  An error escaping a call is
    reported by the loop and changes nothing else. *)
Definition run_ready (f : PythonFuture Loop) : option (PythonFuture Loop) :=
  match ready (world f) with
  | [] => Some f
  | c :: q =>
      let f0 := with_world (with_ready q (world f)) f in
      match c with
      | CompleteAwaitable =>
          o ← complete_awaitable f0;
          Some (match o with Returned f' => f' | Raised _ => f0 end)
      | CancelSource => cancel bridge_outcome bridge_effect f0
      end
  end.

End Bridge.

(** Spec-side vocabulary used by the statements below. *)

(** A turn of the wait loop woken by a signal whose handler raised nothing. *)
Definition spurious (it : WaitIteration) : Prop :=
  wait_result it = kInterrupt ∧ pending_signal it = None.

(** What one call during dispatch adds to the log, given how it ends. *)
Definition dispatch_events (py_outcome : nat → CallEnd) (cb : nat) : list Event :=
  DoneInvoked cb ::
  match py_outcome cb with
  | CallReturns => []
  | CallRaises e => [Unraisable e]
  | CallThrows => [LogUnexpected]
  end.

(** The errors the host awaitable takes: exception instances other than
    those of [StopIteration]. *)
Definition aw_accepts (e : PyObject) : bool :=
  PyExceptionInstance_Check e && negb (is_StopIteration e).


Definition is_write (op : Op) : bool :=
  match op with OpSetResult _ | OpSetException _ => true | _ => false end.

(** The slot a producer write stores when it is the first. *)
Definition written (op : Op) : ResultSlot :=
  match op with
  | OpSetResult v =>
      Completed {| value := Some v; error_type := None;
                   error_value := None; error_traceback := None |}
  | OpSetException e =>
      Completed {| value := None;
                   error_type := Some (PyErr_SetObject (Py_TYPE e) e).1;
                   error_value := Some (PyErr_SetObject (Py_TYPE e) e).2;
                   error_traceback := None |}
  | _ => Unset
  end.

(** ** A small configuration used to instantiate the statements *)

(** A cancel list with three registered tokens; the callbacks of the last two
    destroy their own token. *)
Definition example_heap : gmap nat Node :=
  list_to_map
    [(0, {| next := 1; prev := 3; callback := None |});
     (1, {| next := 2; prev := 0; callback := Some Notify |});
     (2, {| next := 3; prev := 1; callback := Some UnlinkSelf |});
     (3, {| next := 0; prev := 2; callback := Some UnlinkSelf |})].

(** The callable at address 8 raises; every other one returns. *)
Definition example_outcome (cb : nat) : CallEnd :=
  if bool_decide (cb = 8)
  then CallRaises (PyExcInstance (UserExcCls 0) PyNone)
  else CallReturns.

Definition example_effect (cb : nat) (w : unit) : unit := w.

(** A pending future with three done callbacks, one of them registered
    twice. *)
Definition example_future : PythonFuture unit :=
  {| slot := Unset; callbacks_ := [7; 8; 7]; registration_ := true;
     heap := example_heap; cancel_callbacks_ := 0; world := tt; log := [] |}.

(** A pending future with an idle loop. *)
Definition example_source : PythonFuture Loop :=
  {| slot := Unset; callbacks_ := [7]; registration_ := true;
     heap := Initialize 0 ∅; cancel_callbacks_ := 0;
     world := {| awaitable_future := APending; awaitable_callbacks := [];
                 ready := [] |};
     log := [] |}.

(** Two waiting threads: both tokens only set their event. *)
Definition example_waiters : gmap nat Node :=
  list_to_map
    [(0, {| next := 1; prev := 2; callback := None |});
     (1, {| next := 2; prev := 0; callback := Some Notify |});
     (2, {| next := 0; prev := 1; callback := Some Notify |})].

Definition example_waited : PythonFuture unit :=
  {| slot := Unset; callbacks_ := []; registration_ := false;
     heap := example_waiters; cancel_callbacks_ := 0; world := tt; log := [] |}.

(** A source that has already been given the value at address 5. *)
Definition example_completed : PythonFuture Loop :=
  {| slot := Completed {| value := Some (PyOpaque 5); error_type := None;
                          error_value := None; error_traceback := None |};
     callbacks_ := []; registration_ := false;
     heap := Initialize 0 ∅; cancel_callbacks_ := 0;
     world := {| awaitable_future := APending; awaitable_callbacks := [];
                 ready := [] |};
     log := [] |}.

(** ** The platform events *)

(** [deadline == absl::InfiniteFuture()]. *)
Definition is_InfiniteFuture (t : absl.Time) : bool :=
  match t with absl.InfiniteFuture => true | _ => false end.

Section PlatformEvents.
(** The value of [ETIMEDOUT] in the platform's [errno.h]. *)
Variable ETIMEDOUT : Z.

(** [ScopedEvent::Wait] over POSIX semaphores.  [ret] is what [sem_wait] or
    [sem_timedwait] returned and [errno] the error number it left; the
    assertions are checks only. *)
Definition posix_Wait (deadline : absl.Time) (ret errno : Z)
    : ScopedEventWaitResult :=
  if is_InfiniteFuture deadline then
    if bool_decide (ret = 0%Z) then kSuccess
    else kInterrupt
  else
    if bool_decide (ret = 0%Z) then kSuccess
    else if bool_decide (errno = ETIMEDOUT) then kTimeout
    else kInterrupt.

(** [ScopedEvent::Wait] over a condition variable (macOS).  [set_entry] is
    the [set] member as read under the mutex on entry, [timedwait_ret] what
    [pthread_cond_timedwait] returned if it was called, and [set_woken] the
    [set] member as read again after the wait. *)
Definition apple_Wait (deadline : absl.Time) (set_entry : bool)
    (timedwait_ret : Z) (set_woken : bool) : ScopedEventWaitResult :=
  let set_value := set_entry in
  let timeout := false in
  let '(set_value, timeout) :=
    if negb set_value then
      let timeout :=
        if is_InfiniteFuture deadline then timeout
        else bool_decide (timedwait_ret = ETIMEDOUT) in
      (set_woken, timeout)
    else (set_value, timeout) in
  if set_value then kSuccess
  else if timeout then kTimeout else kInterrupt.

End PlatformEvents.

(** [INFINITE] and [WAIT_OBJECT_0] of the Windows API. *)
Definition INFINITE : Z := 4294967295%Z.
Definition WAIT_OBJECT_0 : Z := 0%Z.

(** [static_cast<DWORD>] of a 64-bit integer. *)
Definition to_DWORD (z : Z) : Z := (z mod 2 ^ 32)%Z.

(** The [timeout] that [ScopedEvent::Wait] passes to
    [WaitForMultipleObjectsEx] on Windows; [ms] is
    [absl::ToInt64Milliseconds(deadline - absl::Now())]. *)
Definition windows_timeout (deadline : absl.Time) (ms : Z) : Z :=
  if is_InfiniteFuture deadline then INFINITE
  else
    let ms := Z.max 0 ms in
    to_DWORD (Z.min ms INFINITE).

(** The rest of [ScopedEvent::Wait] on Windows: the result for the value
    [res] that [WaitForMultipleObjectsEx] returned, and whether the SIGINT
    event was reset. *)
Definition windows_Wait (res : Z) : ScopedEventWaitResult * bool :=
  if bool_decide (res = (WAIT_OBJECT_0 + 1)%Z) then (kInterrupt, true)
  else if bool_decide (res = WAIT_OBJECT_0) then (kSuccess, false)
  else (kTimeout, false).

(** One wake-up of a thread blocked in the POSIX [Wait], with what the
    thread then finds. *)
Record PosixWake := {
  sem_ret : Z;
  sem_errno : Z;
  woke_cancelled : bool;
  woke_signal : option PyObject;
}.

Definition posix_iteration (ETIMEDOUT : Z) (deadline : absl.Time)
    (w : PosixWake) : WaitIteration :=
  {| wait_result := posix_Wait ETIMEDOUT deadline (sem_ret w) (sem_errno w);
     future_cancelled := woke_cancelled w;
     pending_signal := woke_signal w |}.

(** [InterruptibleWaitImpl] with the scoped cancel-callback token: when a
    future is attached the token at [node], whose callback sets the event,
    is linked into the list with head [head] on entry and destroyed on
    exit, whichever way the loop is left.  The loop waits with the GIL
    released; [others] is what the other threads do to the storage of the
    list in the meantime. *)
Definition InterruptibleWaitImpl_scoped (head node : nat) (python_future : bool)
    (obs : list WaitIteration) (others : gmap nat Node → gmap nat Node)
    (h : gmap nat Node) : option (Outcome unit * gmap nat Node) :=
  h1 ← (if python_future then CancelCallback_new head node Notify h else Some h);
  o ← InterruptibleWaitImpl python_future obs;
  h2 ← (if python_future then CancelCallback_destroy node (others h1)
        else Some (others h1));
  Some (o, h2).

(** The payloads the two producer methods hand to [SetResult]. *)
Definition set_result_payload (result : PyObject) : PythonValueOrException :=
  {| value := Some result; error_type := None;
     error_value := None; error_traceback := None |}.

Definition set_exception_payload (exc : PyObject) : PythonValueOrException :=
  let ind := PyErr_SetObject (Py_TYPE exc) exc in
  {| value := None; error_type := Some ind.1;
     error_value := Some ind.2; error_traceback := None |}.

(** Whether the callback of the node at [n] leaves the list alone. *)
Definition keeps_token (h : gmap nat Node) (n : nat) : bool :=
  match h !! n with
  | Some nd => match callback nd with Some UnlinkSelf => false | _ => true end
  | None => true
  end.

(** * Wait deadline *)

Section WaitDeadlineFacts.
Variable double : Type.
Variable Duration : Type.
Variable Seconds : double → Duration.
Variable time_plus : absl.Time → Duration → absl.Time.
Variable Now : absl.Time.

Lemma lt_irrefl (a : absl.Time) : absl.lt a a = false.
Proof.
  destruct a as [|x|]; simpl; try reflexivity.
  apply bool_decide_eq_false. lia.
Qed.

Lemma lt_asym (a b : absl.Time) : absl.lt a b = true → absl.lt b a = false.
Proof.
  destruct a as [|x|], b as [|y|]; simpl; try congruence.
  rewrite bool_decide_eq_true, bool_decide_eq_false. lia.
Qed.

Lemma std_min_InfiniteFuture (b : absl.Time) : std_min absl.InfiniteFuture b = b.
Proof. destruct b; reflexivity. Qed.

Lemma std_min_lower (a b : absl.Time) :
  (std_min a b = a ∨ std_min a b = b)
  ∧ absl.le (std_min a b) a = true ∧ absl.le (std_min a b) b = true.
Proof.
  unfold std_min, absl.le.
  destruct (absl.lt b a) eqn:Hba.
  - split; [by right|]. rewrite lt_irrefl, (lt_asym _ _ Hba). done.
  - split; [by left|]. rewrite lt_irrefl, Hba. done.
Qed.

(** C9.  [GetWaitDeadline] returns the infinite future when neither argument
    is given, the Unix epoch plus the deadline seconds when only the deadline
    is given, now plus the timeout seconds when only the timeout is given,
    and with both the earlier of the two instants: it is one of them and it
    is no later than either. *)
Theorem GetWaitDeadline_cases :
  let G := GetWaitDeadline double Duration Seconds time_plus Now in
  G None None = absl.InfiniteFuture
  ∧ (∀ d, G None (Some d) = time_plus absl.UnixEpoch (Seconds d))
  ∧ (∀ t, G (Some t) None = time_plus Now (Seconds t))
  ∧ (∀ t d,
       let by_deadline := time_plus absl.UnixEpoch (Seconds d) in
       let by_timeout := time_plus Now (Seconds t) in
       (G (Some t) (Some d) = by_deadline ∨ G (Some t) (Some d) = by_timeout)
       ∧ absl.le (G (Some t) (Some d)) by_deadline = true
       ∧ absl.le (G (Some t) (Some d)) by_timeout = true).
Proof.
  unfold GetWaitDeadline. repeat split.
  - intros t. apply std_min_InfiniteFuture.
  - apply std_min_lower.
  - apply std_min_lower.
  - apply std_min_lower.
Qed.

End WaitDeadlineFacts.

(** * The interruptible wait loop *)

Lemma InterruptibleWaitImpl_skip (pf : bool) (pre rest : list WaitIteration) :
  Forall spurious pre →
  InterruptibleWaitImpl pf (pre ++ rest) = InterruptibleWaitImpl pf rest.
Proof.
  induction 1 as [|it pre [Hw Hs] _ IH]; [reflexivity|].
  simpl. rewrite Hw. unfold PyErr_CheckSignals. rewrite Hs. simpl. exact IH.
Qed.

(** C2.  After any number of spurious wake-ups the loop is decided by the
    next turn: a timeout fails with [TimeoutError]; a success fails with
    [CancelledError] when a future is attached and reports cancelled, and
    returns normally otherwise; an interrupt re-checks the pending signals
    and fails with the raised error when there is one, and otherwise the
    loop goes round again. *)
Theorem InterruptibleWaitImpl_cases (pf : bool) (pre : list WaitIteration)
    (it : WaitIteration) (post : list WaitIteration) :
  Forall spurious pre →
  let r := InterruptibleWaitImpl pf (pre ++ it :: post) in
  (wait_result it = kTimeout → r = Some (Raised (PyType TimeoutErrorCls)))
  ∧ (wait_result it = kSuccess → pf = true → future_cancelled it = true →
       r = Some (Raised (PyType CancelledErrorCls)))
  ∧ (wait_result it = kSuccess → pf = false ∨ future_cancelled it = false →
       r = Some (Returned tt))
  ∧ (∀ e, wait_result it = kInterrupt → pending_signal it = Some e →
       PyErr_CheckSignals it = (-1)%Z ∧ r = Some (Raised e))
  ∧ (wait_result it = kInterrupt → pending_signal it = None →
       PyErr_CheckSignals it = 0%Z ∧ r = InterruptibleWaitImpl pf post).
Proof.
  intros Hpre r. subst r. rewrite (InterruptibleWaitImpl_skip _ _ _ Hpre).
  simpl. unfold PyErr_CheckSignals, error_indicator.
  split; [|split; [|split; [|split]]].
  - intros ->. reflexivity.
  - intros -> -> ->. reflexivity.
  - intros -> [-> | ->]; [reflexivity|]. by rewrite andb_false_r.
  - intros e -> ->. split; reflexivity.
  - intros -> ->. split; reflexivity.
Qed.

(** An instance: two spurious wake-ups, then a success on a cancelled
    future. *)
Lemma InterruptibleWaitImpl_cases_witness :
  let sp := {| wait_result := kInterrupt; future_cancelled := false;
               pending_signal := None |} in
  let it := {| wait_result := kSuccess; future_cancelled := true;
               pending_signal := None |} in
  InterruptibleWaitImpl true ([sp; sp] ++ it :: [])
  = Some (Raised (PyType CancelledErrorCls)).
Proof.
  intros sp it.
  assert (Hpre : Forall spurious [sp; sp]).
  { repeat constructor. }
  exact (proj1 (proj2 (InterruptibleWaitImpl_cases true [sp; sp] it [] Hpre))
           eq_refl eq_refl eq_refl).
Defined.

(** * Removal of done callbacks *)

Lemma remove_if_loop_spec (pred : nat → bool) (rest kept junk : list nat) :
  let out := remove_if_loop pred (length rest) (length kept + length junk)
               (length kept) (kept ++ junk ++ rest) in
  take out.2 out.1 = kept ++ filter (λ x, pred x = false) rest
  ∧ out.2 = length kept + length (filter (λ x, pred x = false) rest)
  ∧ length out.1 = length (kept ++ junk ++ rest).
Proof.
  revert kept junk.
  induction rest as [|x rest IH]; intros kept junk; simpl.
  - rewrite take_app_length, app_nil_r, Nat.add_0_r. done.
  - assert (Hx : (kept ++ junk ++ x :: rest) !! (length kept + length junk) = Some x).
    { rewrite app_assoc, <- length_app. apply list_lookup_middle. done. }
    rewrite Hx.
    destruct (pred x) eqn:Hp.
    + rewrite filter_cons_False by congruence.
      specialize (IH kept (junk ++ [x])).
      rewrite length_app in IH. simpl in IH.
      rewrite <- (assoc_L (++) junk [x] rest) in IH. simpl in IH.
      replace (S (length kept + length junk))
        with (length kept + (length junk + 1)) by lia.
      exact IH.
    + rewrite filter_cons_True by done.
      assert (Hins : ∃ junk', <[length kept := x]> (kept ++ junk ++ x :: rest)
                              = (kept ++ [x]) ++ junk' ++ rest
                              ∧ length junk' = length junk).
      { destruct junk as [|j js].
        - exists []. simpl. split; [|done].
          rewrite <- (Nat.add_0_r (length kept)), insert_app_r. simpl.
          by rewrite <- (assoc_L (++)).
        - exists (js ++ [x]). split; [|rewrite length_app; simpl; lia].
          rewrite <- (Nat.add_0_r (length kept)), insert_app_r. simpl.
          rewrite <- !(assoc_L (++)). done. }
      destruct Hins as (junk' & Hins & Hlen).
      rewrite Hins.
      specialize (IH (kept ++ [x]) junk').
      rewrite length_app in IH. simpl in IH. rewrite Hlen in IH.
      replace (S (length kept + length junk))
        with (length kept + 1 + length junk) by lia.
      replace (S (length kept)) with (length kept + 1) by lia.
      destruct IH as (IH1 & IH2 & IH3).
      split; [rewrite IH1; by rewrite <- (assoc_L (++) kept [x])|].
      split; [simpl; lia|].
      rewrite IH3. repeat (rewrite ?length_app; simpl). lia.
Qed.

Lemma std_remove_if_spec (pred : nat → bool) (v : list nat) :
  take (std_remove_if pred v).2 (std_remove_if pred v).1
    = filter (λ x, pred x = false) v
  ∧ (std_remove_if pred v).2 = length (filter (λ x, pred x = false) v)
  ∧ length (std_remove_if pred v).1 = length v.
Proof. exact (remove_if_loop_spec pred v [] []). Qed.

Lemma filter_split_length (P : nat → Prop) `{∀ x, Decision (P x)} (l : list nat) :
  length (filter P l) + length (filter (λ x, ¬ P x) l) = length l.
Proof.
  induction l as [|x l IH]; [done|].
  rewrite !filter_cons. destruct (decide (P x)) as [Hp|Hp].
  - destruct (decide (¬ P x)); [done|]. simpl. lia.
  - destruct (decide (¬ P x)); [|done]. simpl. lia.
Qed.

Lemma filter_not_eq_id (cb : nat) (l : list nat) :
  cb ∉ l → filter (λ h, h ≠ cb) l = l.
Proof.
  induction l as [|x l IH]; [done|].
  rewrite not_elem_of_cons. intros [Hx Hl].
  rewrite filter_cons_True by done. by rewrite IH.
Qed.

Section DoneCallbackFacts.
Context {World : Type}.
Variable py_outcome : nat → CallEnd.
Variable py_effect : nat → World → World.

(** C5.  [remove_done_callback cb] leaves exactly the stored callbacks whose
    identity differs from [cb], in their order; returns the number of those
    that matched, which is 0 with nothing changed in the vector when none
    match; and unregisters the listener registration when no callback
    remains (leaving it alone otherwise).  Nothing else changes. *)
Theorem remove_done_callback_spec (cb : nat) (f : PythonFuture World) :
  let f' := (remove_done_callback cb f).1 in
  let n := (remove_done_callback cb f).2 in
  callbacks_ f' = filter (λ h, h ≠ cb) (callbacks_ f)
  ∧ n = length (filter (λ h, h = cb) (callbacks_ f))
  ∧ (cb ∉ callbacks_ f → n = 0 ∧ callbacks_ f' = callbacks_ f)
  ∧ (callbacks_ f' = [] → registration_ f' = false)
  ∧ (callbacks_ f' ≠ [] → registration_ f' = registration_ f)
  ∧ slot f' = slot f ∧ log f' = log f ∧ heap f' = heap f.
Proof.
  intros f' n. subst f' n. unfold remove_done_callback.
  pose proof (std_remove_if_spec (λ h, bool_decide (h = cb)) (callbacks_ f))
    as (Htake & Hit & Hlen).
  destruct (std_remove_if _ _) as [v it]. simpl in Htake, Hit, Hlen.
  assert (Hf : filter (λ x, bool_decide (x = cb) = false) (callbacks_ f)
               = filter (λ h, h ≠ cb) (callbacks_ f)).
  { apply list_filter_iff. intros x. by rewrite bool_decide_eq_false. }
  rewrite Hf in Htake, Hit.
  pose proof (filter_split_length (λ h, h = cb) (callbacks_ f)) as Hsplit.
  assert (Hcallbacks :
    callbacks_ (match callbacks_ (with_callbacks (take it v) f) with
                | [] => with_registration false (with_callbacks (take it v) f)
                | _ :: _ => with_callbacks (take it v) f
                end) = take it v).
  { simpl. by destruct (take it v). }
  simpl. rewrite Htake. split; [|split; [|split; [|split; [|split]]]].
  - destruct (filter _ _); done.
  - lia.
  - intros Hnot. rewrite (filter_not_eq_id _ _ Hnot) in *.
    split; [lia|]. by destruct (callbacks_ f).
  - destruct (filter _ _); done.
  - destruct (filter _ _); done.
  - destruct (filter _ _); done.
Qed.

End DoneCallbackFacts.

(** The fields of the future after a removal. *)
Lemma remove_done_callback_fields {World : Type} (cb : nat) (f : PythonFuture World) :
  let f' := (remove_done_callback cb f).1 in
  callbacks_ f' = filter (λ h, h ≠ cb) (callbacks_ f)
  ∧ (remove_done_callback cb f).2
    = length (callbacks_ f) - length (filter (λ h, h ≠ cb) (callbacks_ f))
  ∧ registration_ f'
    = match filter (λ h, h ≠ cb) (callbacks_ f) with
      | [] => false
      | _ :: _ => registration_ f
      end
  ∧ slot f' = slot f ∧ log f' = log f ∧ heap f' = heap f
  ∧ cancel_callbacks_ f' = cancel_callbacks_ f ∧ world f' = world f.
Proof.
  unfold remove_done_callback.
  pose proof (std_remove_if_spec (λ h, bool_decide (h = cb)) (callbacks_ f))
    as (Htake & Hit & Hlen).
  destruct (std_remove_if _ _) as [v it]. simpl in Htake, Hit, Hlen.
  assert (Hf : filter (λ x, bool_decide (x = cb) = false) (callbacks_ f)
               = filter (λ h, h ≠ cb) (callbacks_ f)).
  { apply list_filter_iff. intros x. by rewrite bool_decide_eq_false. }
  rewrite Hf in Htake, Hit.
  simpl. rewrite Htake, Hlen, Hit.
  destruct (filter _ _); done.
Qed.

Lemma PythonFuture_eq {World : Type} (f g : PythonFuture World) :
  slot f = slot g → callbacks_ f = callbacks_ g →
  registration_ f = registration_ g → heap f = heap g →
  cancel_callbacks_ f = cancel_callbacks_ g → world f = world g →
  log f = log g → f = g.
Proof. destruct f, g. simpl. by intros -> -> -> -> -> -> ->. Qed.

(** * Dispatch of done callbacks *)

Section DispatchFacts.
Context {World : Type}.
Variable py_outcome : nat → CallEnd.
Variable py_effect : nat → World → World.

Lemma done_invocations_app (a b : list Event) :
  done_invocations (a ++ b) = done_invocations a ++ done_invocations b.
Proof. apply omap_app. Qed.

Lemma cancel_invocations_app (a b : list Event) :
  cancel_invocations (a ++ b) = cancel_invocations a ++ cancel_invocations b.
Proof. apply omap_app. Qed.

Lemma done_invocations_dispatch (l : list nat) :
  done_invocations (l ≫= dispatch_events py_outcome) = l.
Proof.
  induction l as [|cb l IH]; [done|].
  rewrite bind_cons, done_invocations_app, IH.
  unfold dispatch_events. by destruct (py_outcome cb).
Qed.

Lemma cancel_invocations_dispatch (l : list nat) :
  cancel_invocations (l ≫= dispatch_events py_outcome) = [].
Proof.
  induction l as [|cb l IH]; [done|].
  rewrite bind_cons, cancel_invocations_app, IH.
  unfold dispatch_events. by destruct (py_outcome cb).
Qed.

Lemma done_invocations_cancel_events (l : list nat) :
  done_invocations (CancelInvoked <$> l) = [].
Proof. induction l; done. Qed.

Lemma cancel_invocations_cancel_events (l : list nat) :
  cancel_invocations (CancelInvoked <$> l) = l.
Proof. induction l as [|n l IH]; [done|]. simpl. by f_equal. Qed.

Lemma invoke_logged_log (f : PythonFuture World) (cb : nat) :
  log (invoke_logged py_outcome py_effect f cb)
  = log f ++ dispatch_events py_outcome cb.
Proof. unfold invoke_logged, dispatch_events. by destruct (py_outcome cb). Qed.

Lemma invoke_logged_frame (f : PythonFuture World) (cb : nat) :
  let f' := invoke_logged py_outcome py_effect f cb in
  slot f' = slot f ∧ callbacks_ f' = callbacks_ f
  ∧ registration_ f' = registration_ f ∧ heap f' = heap f
  ∧ cancel_callbacks_ f' = cancel_callbacks_ f.
Proof. unfold invoke_logged. by destruct (py_outcome cb). Qed.

Lemma dispatch_loop (l : list nat) (f : PythonFuture World) :
  let f' := foldl (invoke_logged py_outcome py_effect) f l in
  log f' = log f ++ (l ≫= dispatch_events py_outcome)
  ∧ slot f' = slot f ∧ callbacks_ f' = callbacks_ f
  ∧ registration_ f' = registration_ f ∧ heap f' = heap f
  ∧ cancel_callbacks_ f' = cancel_callbacks_ f.
Proof.
  revert f. induction l as [|cb l IH]; intros f; simpl.
  - by rewrite app_nil_r.
  - destruct (IH (invoke_logged py_outcome py_effect f cb))
      as (Hl & Hs & Hc & Hr & Hh & Hd).
    destruct (invoke_logged_frame f cb) as (Hs' & Hc' & Hr' & Hh' & Hd').
    rewrite Hl, Hs, Hc, Hr, Hh, Hd, invoke_logged_log.
    rewrite <- (assoc_L (++)). done.
Qed.

Lemma RunCallbacks_frame (f : PythonFuture World) :
  let f' := RunCallbacks py_outcome py_effect f in
  log f' = log f ++ (callbacks_ f ≫= dispatch_events py_outcome)
  ∧ slot f' = slot f ∧ callbacks_ f' = []
  ∧ registration_ f' = registration_ f ∧ heap f' = heap f
  ∧ cancel_callbacks_ f' = cancel_callbacks_ f.
Proof.
  unfold RunCallbacks.
  exact (dispatch_loop (callbacks_ f) (with_callbacks [] f)).
Qed.

Lemma SetResult_pending (v : PythonValueOrException) (f : PythonFuture World) :
  slot f = Unset →
  SetResult py_outcome py_effect v f
  = RunCallbacks py_outcome py_effect (with_slot (Completed v) f).
Proof. unfold SetResult. by intros ->. Qed.

Lemma SetResult_terminal (v : PythonValueOrException) (f : PythonFuture World) :
  slot f ≠ Unset → SetResult py_outcome py_effect v f = f.
Proof. unfold SetResult. by destruct (slot f). Qed.

Lemma step_write (op : Op) (f : PythonFuture World) :
  is_write op = true →
  ∃ v, written op = Completed v
       ∧ step py_outcome py_effect f op
         = Some (SetResult py_outcome py_effect v f).
Proof. destruct op; try done; intros _; eexists; split; reflexivity. Qed.

Lemma run_writes_terminal (ops : list Op) (f : PythonFuture World) :
  slot f ≠ Unset → Forall (λ op, is_write op = true) ops →
  run py_outcome py_effect ops f = Some f.
Proof.
  intros Hf Hops. induction Hops as [|op ops Hop _ IH]; [done|].
  simpl. destruct (step_write op f Hop) as (v & _ & ->). simpl.
  by rewrite SetResult_terminal.
Qed.

(** C6.  In [RunCallbacks] every callback of the vector is invoked, in
    order, however the earlier ones end; a raised Python error is handed to
    the unraisable hook and any other exception is logged; the stored result
    is untouched, so a successful completion stays a success: after
    [set_result v] on a pending future [result] returns [v]. *)
Theorem RunCallbacks_isolates_failures (f : PythonFuture World) :
  let f' := RunCallbacks py_outcome py_effect f in
  log f' = log f ++ (callbacks_ f ≫= dispatch_events py_outcome)
  ∧ done_invocations (log f') = done_invocations (log f) ++ callbacks_ f
  ∧ slot f' = slot f
  ∧ callbacks_ f' = []
  ∧ (∀ v, slot f = Unset →
       slot (set_result py_outcome py_effect v f) = written (OpSetResult v)
       ∧ result (set_result py_outcome py_effect v f) = Some (Returned v)).
Proof.
  destruct (RunCallbacks_frame f) as (Hl & Hs & Hc & _).
  split; [exact Hl|]. split.
  { rewrite Hl, done_invocations_app, done_invocations_dispatch. done. }
  split; [exact Hs|]. split; [exact Hc|].
  intros v Hu. unfold set_result. rewrite SetResult_pending by done.
  unfold result.
  destruct (RunCallbacks_frame (with_slot (written (OpSetResult v)) f))
    as (_ & Hs' & _).
  simpl in Hs'. rewrite Hs'. done.
Qed.

(** C1.  In a sequence of producer writes only the first can take effect:
    the writes that follow leave the whole state as the first one left it,
    [done] holds from then on, the slot holds what the first write stored if
    the future was pending before it, and on a future that was already
    terminal even the first write changes nothing. *)
Theorem first_write_wins (op : Op) (ops : list Op) (f : PythonFuture World) :
  is_write op = true → Forall (λ o, is_write o = true) ops →
  ∃ f1, step py_outcome py_effect f op = Some f1
        ∧ run py_outcome py_effect (op :: ops) f = Some f1
        ∧ done f1 = true
        ∧ (slot f = Unset → slot f1 = written op)
        ∧ (slot f ≠ Unset → f1 = f).
Proof.
  intros Hop Hops.
  destruct (step_write op f Hop) as (v & Hw & Hstep).
  exists (SetResult py_outcome py_effect v f).
  assert (Hslot : slot f = Unset →
                  slot (SetResult py_outcome py_effect v f) = Completed v).
  { intros Hu. rewrite SetResult_pending by done.
    by destruct (RunCallbacks_frame (with_slot (Completed v) f)) as (_ & -> & _). }
  assert (Hdone : slot (SetResult py_outcome py_effect v f) ≠ Unset).
  { destruct (slot f) eqn:Hs.
    - rewrite Hslot; done.
    - rewrite SetResult_terminal; rewrite Hs; done.
    - rewrite SetResult_terminal; rewrite Hs; done. }
  split; [exact Hstep|]. split.
  { simpl. rewrite Hstep. simpl. by apply run_writes_terminal. }
  split.
  { unfold done. by destruct (slot (SetResult _ _ v f)). }
  split.
  { rewrite Hw. exact Hslot. }
  intros Hn. by apply SetResult_terminal.
Qed.

End DispatchFacts.

(** * The intrusive list of cancel callbacks *)

Lemma chain_frame (h h' : gmap nat Node) (l : list nat) (pp p q : nat) :
  (∀ x, x ∈ l → h' !! x = h !! x) → chain h pp p l q → chain h' pp p l q.
Proof.
  revert pp p. induction l as [|n l IH]; intros pp p Hsame; simpl; [done|].
  intros (-> & nd & Hn & Hprev & Hcb & Hrest).
  split; [done|]. exists nd. rewrite Hsame by left.
  repeat split; try done.
  apply IH; [|done]. intros x Hx. apply Hsame. by right.
Qed.

Lemma chain_lookup (h : gmap nat Node) (l : list nat) (pp p q x : nat) :
  chain h pp p l q → x ∈ l → is_Some (h !! x).
Proof.
  revert pp p. induction l as [|n l IH]; intros pp p; simpl.
  - intros _ Hx. by apply elem_of_nil in Hx.
  - intros (-> & nd & Hn & _ & _ & Hrest) [->|Hx]%elem_of_cons; [by eexists|].
    by eapply IH.
Qed.

Lemma chain_length_le_size (h : gmap nat Node) (l : list nat) (pp p q : nat) :
  NoDup l → chain h pp p l q → length l ≤ size h.
Proof.
  intros Hnd Hch.
  rewrite <- (size_list_to_set (C := gset nat) l Hnd), <- (size_dom (D := gset nat) h).
  apply subseteq_size. intros x Hx.
  apply elem_of_list_to_set in Hx. apply elem_of_dom.
  by eapply chain_lookup.
Qed.

Lemma RunCancelCallbacks_loop_head (fuel head : nat)
    (st : gmap nat Node * list Event) :
  RunCancelCallbacks_loop fuel head head st = Some st.
Proof. destruct fuel; simpl; by rewrite bool_decide_eq_true_2. Qed.

(** The list of a fresh future is well formed and empty. *)
Lemma Initialize_cancel_list (head : nat) :
  cancel_list (Initialize head ∅) head [].
Proof.
  split; [apply NoDup_singleton|].
  eexists. split; [apply lookup_insert_eq|]. done.
Qed.

(** A fresh pair is pending, has nothing registered, and its cancel list is
    well formed. *)
Lemma new_future_well_formed {World : Type} (head : nat) (w : World) :
  slot (new_future head w) = Unset
  ∧ callbacks_ (new_future head w) = []
  ∧ cancel_list (heap (new_future head w))
      (cancel_callbacks_ (new_future head w)) [].
Proof. split; [done|]. split; [done|]. apply Initialize_cancel_list. Qed.

(** Appending to a non-empty segment: the last node now points to the new
    one, which points to the head. *)
Lemma chain_snoc (h h' : gmap nat Node) (head node : nat) (a : CancelAction)
    (l : list nat) :
  ∀ (pp p t : nat) (nt : Node),
    NoDup l → chain h pp p l head → last l = Some t → h !! t = Some nt →
    (∀ x, x ∈ l → x ≠ t → h' !! x = h !! x) →
    h' !! t = Some {| next := node; prev := prev nt; callback := callback nt |} →
    h' !! node = Some {| next := head; prev := t; callback := Some a |} →
    chain h' pp p (l ++ [node]) head.
Proof.
  induction l as [|n l IH]; intros pp p t nt Hnd Hch Hlast Ht Hsame Ht' Hnode;
    [done|].
  simpl in Hch. destruct Hch as (-> & nd & Hn & Hprev & Hcb & Hrest).
  apply NoDup_cons in Hnd as [Hnl Hnd].
  destruct l as [|m l'].
  - simpl in Hlast, Hrest. injection Hlast as <-.
    assert (nt = nd) as -> by congruence.
    simpl. split; [done|]. eexists. split; [exact Ht'|]. simpl.
    split; [done|]. split; [done|]. split; [done|].
    eexists. split; [exact Hnode|]. simpl. split; [done|].
    split; [by eexists | done].
  - rewrite last_cons_cons in Hlast.
    assert (Htin : t ∈ m :: l') by (by apply last_Some_elem_of).
    assert (n ≠ t) by (intros ->; done).
    change ((n :: m :: l') ++ [node]) with (n :: ((m :: l') ++ [node])).
    cbn [chain]. split; [done|]. exists nd.
    rewrite Hsame by (done || left).
    split; [done|]. split; [done|]. split; [done|].
    apply (IH n (next nd) t nt); try done.
    intros x Hx Hxt. apply Hsame; [by right | done].
Qed.

(** Registration keeps the list well formed and appends the new token. *)
Lemma CancelCallback_new_cancel_list (h : gmap nat Node) (head node : nat)
    (a : CancelAction) (l : list nat) :
  cancel_list h head l → node ∉ head :: l →
  ∃ h', CancelCallback_new head node a h = Some h'
        ∧ cancel_list h' head (l ++ [node]).
Proof.
  intros (Hnd & hd & Hhd & Hch & Hprev) Hnode.
  apply not_elem_of_cons in Hnode as [Hnh Hnl].
  pose proof Hnd as Hnd0.
  apply NoDup_cons in Hnd as [Hhl Hndl].
  assert (Hnd' : NoDup (head :: l ++ [node])).
  { apply NoDup_cons. split.
    - rewrite elem_of_app, list_elem_of_singleton. intros [?|?]; done.
    - apply NoDup_app. split; [done|]. split; [|apply NoDup_singleton].
      intros x Hx ->%list_elem_of_singleton. done. }
  unfold CancelCallback_new. rewrite Hhd. simpl.
  destruct (last l) as [t|] eqn:Hlast.
  - (* the list has a last node *)
    simpl in Hprev.
    assert (Htl : t ∈ l) by (by apply last_Some_elem_of).
    assert (Hth : t ≠ head) by (intros ->; done).
    assert (Htn : t ≠ node) by (intros ->; done).
    destruct (chain_lookup h l head (next hd) head t Hch Htl) as [nt Hnt].
    rewrite Hprev.
    rewrite lookup_insert_ne by done. rewrite Hnt. simpl.
    rewrite lookup_insert_ne by done.
    rewrite lookup_insert_ne by done. rewrite Hhd. simpl.
    eexists. split; [reflexivity|].
    split; [exact Hnd'|].
    eexists. split; [apply lookup_insert_eq|]. simpl.
    split; [|by rewrite last_snoc].
    apply (chain_snoc h _ head node a l head (next hd) t nt); try done.
    + intros x Hx Hxt.
      rewrite lookup_insert_ne by (intros <-; done).
      rewrite lookup_insert_ne by done.
      apply lookup_insert_ne. intros <-. done.
    + rewrite lookup_insert_ne by done. apply lookup_insert_eq.
    + rewrite lookup_insert_ne by done.
      rewrite lookup_insert_ne by done. apply lookup_insert_eq.
  - (* the list is empty: the head is its own neighbour *)
    apply last_None in Hlast. subst l. simpl in Hprev, Hch.
    rewrite Hprev.
    rewrite lookup_insert_ne by done. rewrite Hhd. simpl.
    rewrite lookup_insert_eq. simpl.
    eexists. split; [reflexivity|].
    split; [exact Hnd'|].
    eexists. split; [apply lookup_insert_eq|]. simpl.
    split; [|done]. split; [done|].
    eexists. split.
    { rewrite lookup_insert_ne by done.
      rewrite lookup_insert_ne by done. apply lookup_insert_eq. }
    simpl. split; [done|]. split; [by eexists | done].
Qed.

(** What destroying a linked token does to the storage. *)
Lemma CancelCallback_destroy_spec (h : gmap nat Node) (n : nat) (nd nx : Node) :
  h !! n = Some nd → h !! next nd = Some nx → is_Some (h !! prev nd) →
  ∃ h', CancelCallback_destroy n h = Some h'
        ∧ h' !! n = None
        ∧ (∀ x, x ≠ n → x ≠ next nd → x ≠ prev nd → h' !! x = h !! x)
        ∧ (next nd ≠ n → next nd ≠ prev nd →
             h' !! next nd = Some {| next := next nx; prev := prev nd;
                                     callback := callback nx |})
        ∧ (∀ x, x ≠ n → is_Some (h !! x) → is_Some (h' !! x))
        ∧ (∀ x, h !! x = None → h' !! x = None).
Proof.
  intros Hn Hnx Hpv.
  unfold CancelCallback_destroy, Remove. rewrite Hn. simpl. rewrite Hnx. simpl.
  set (h1 := <[next nd := _]> h).
  assert (Hpv1 : is_Some (h1 !! prev nd)).
  { apply lookup_insert_is_Some'. by right. }
  destruct Hpv1 as [pv Hpv1]. rewrite Hpv1. simpl.
  eexists. split; [reflexivity|].
  split; [apply lookup_delete_eq|].
  split.
  { intros x H1 H2 H3. rewrite lookup_delete_ne by done.
    rewrite lookup_insert_ne by done. by apply lookup_insert_ne. }
  split.
  { intros H1 H2. rewrite lookup_delete_ne by done.
    rewrite lookup_insert_ne by done. apply lookup_insert_eq. }
  split.
  { intros x H1 Hx. rewrite lookup_delete_ne by done.
    apply lookup_insert_is_Some'. right.
    apply lookup_insert_is_Some'. by right. }
  intros x Hx. destruct (decide (n = x)) as [->|Hne].
  { apply lookup_delete_eq. }
  rewrite lookup_delete_ne by done.
  apply lookup_insert_None. split.
  - apply lookup_insert_None. split; [done|]. intros <-. congruence.
  - intros <-. destruct Hpv as [? Hpv]. congruence.
Qed.

(** The loop invariant: from the node the loop stands on, the [next]
    pointers run through the nodes still to visit and reach the head; the
    predecessor of that node is a live cell that is not among them.  Each of
    these nodes is then called once, in order, and the ones whose callback
    destroys its token are gone from the storage afterwards. *)
Lemma RunCancelCallbacks_loop_chain (head : nat) (l : list nat) :
  ∀ (fuel : nat) (h : gmap nat Node) (pp p : nat) (lg : list Event),
    length l ≤ fuel → NoDup l → head ∉ l → pp ∉ l →
    is_Some (h !! pp) → is_Some (h !! head) → chain h pp p l head →
    ∃ h', RunCancelCallbacks_loop fuel head p (h, lg)
          = Some (h', lg ++ (CancelInvoked <$> l))
          ∧ (∀ x, h !! x = None → h' !! x = None)
          ∧ (∀ x nd, x ∈ l → h !! x = Some nd →
               callback nd = Some UnlinkSelf → h' !! x = None).
Proof.
  induction l as [|n l IH]; intros fuel h pp p lg Hfuel Hnd Hhead Hpp Hlpp Hlhead Hch.
  - simpl in Hch. subst p. exists h.
    rewrite RunCancelCallbacks_loop_head, app_nil_r.
    split; [done|]. split; [done|]. intros x nd Hx. by apply elem_of_nil in Hx.
  - simpl in Hch. destruct Hch as (-> & nd & Hn & Hprev & [a Ha] & Hrest).
    apply NoDup_cons in Hnd as [Hnl Hnd].
    apply not_elem_of_cons in Hhead as [Hhn Hhead].
    apply not_elem_of_cons in Hpp as [Hppn Hpp].
    destruct fuel as [|fuel]; [simpl in Hfuel; lia|].
    simpl in Hfuel.
    rewrite fmap_cons, (cons_middle _ lg), (assoc_L (++)).
    simpl.
    rewrite bool_decide_eq_false_2 by done.
    rewrite Hn. simpl. rewrite Ha. simpl.
    destruct a; simpl.
    + (* the callback leaves the list alone *)
      destruct (IH fuel h n (next nd) (lg ++ [CancelInvoked n]) ltac:(lia)
                  Hnd Hhead Hnl ltac:(by eexists) Hlhead Hrest)
        as (h' & Hrun & Hnone & Hgone).
      exists h'. split; [exact Hrun|]. split; [exact Hnone|].
      intros x ndx [->|Hx]%elem_of_cons Hhx Hcb.
      * congruence.
      * by eapply Hgone.
    + (* the callback destroys its own token *)
      assert (Hnx : is_Some (h !! next nd)).
      { destruct l as [|m l']; simpl in Hrest.
        - by rewrite Hrest.
        - destruct Hrest as (-> & md & Hm & _). by eexists. }
      destruct Hnx as [nx Hnx].
      destruct (CancelCallback_destroy_spec h n nd nx Hn Hnx)
        as (h' & -> & Hdel & Hother & Hnext & Hlive & Hnone).
      { by rewrite Hprev. }
      simpl.
      assert (Hkeep : ∀ x ndx, x ∈ l → h !! x = Some ndx →
                ∃ ndx', h' !! x = Some ndx' ∧ next ndx' = next ndx
                        ∧ callback ndx' = callback ndx
                        ∧ (x ≠ next nd → ndx' = ndx)).
      { intros x ndx Hx Hhx.
        assert (x ≠ n) by (intros ->; done).
        assert (x ≠ prev nd) by (rewrite Hprev; intros ->; done).
        destruct (decide (x = next nd)) as [->|Hxn].
        - rewrite Hnext by done. eexists. split; [done|].
          assert (nx = ndx) as -> by congruence. done.
        - exists ndx. rewrite Hother by done. done. }
      assert (Hch' : chain h' pp (next nd) l head).
      { destruct l as [|m l']; simpl in Hrest |- *; [done|].
        destruct Hrest as (Hm & md & Hmd & Hmprev & Hmcb & Hrest').
        split; [done|].
        apply NoDup_cons in Hnd as [Hml' Hnd'].
        apply not_elem_of_cons in Hnl as [Hnm Hnl'].
        apply not_elem_of_cons in Hpp as [Hppm Hpp'].
        assert (nx = md) as -> by congruence.
        eexists. split.
        { rewrite <- Hm. apply Hnext; [congruence|]. rewrite Hprev. congruence. }
        simpl. repeat split; try done.
        apply (chain_frame h); [|done].
        intros x Hx. apply Hother.
        - intros ->. done.
        - rewrite Hm. intros ->. done.
        - rewrite Hprev. intros ->. done. }
      destruct (IH fuel h' pp (next nd) (lg ++ [CancelInvoked n])
                  ltac:(lia) Hnd Hhead Hpp
                  (Hlive pp Hppn Hlpp) (Hlive head Hhn Hlhead) Hch')
        as (h'' & Hrun & Hnone' & Hgone').
      exists h''. split; [exact Hrun|]. split.
      { intros x Hx. apply Hnone', Hnone, Hx. }
      intros x ndx [->|Hx]%elem_of_cons Hhx Hcb.
      * apply Hnone', Hdel.
      * destruct (Hkeep x ndx Hx Hhx) as (ndx' & Hx' & _ & Hcb' & _).
        apply (Hgone' x ndx' Hx Hx'). congruence.
Qed.

Section CancelFacts.
Context {World : Type}.
Variable py_outcome : nat → CallEnd.
Variable py_effect : nat → World → World.

Lemma RunCancelCallbacks_frame (f : PythonFuture World) (l : list nat) :
  cancel_list (heap f) (cancel_callbacks_ f) l →
  ∃ f', RunCancelCallbacks f = Some f'
        ∧ log f' = log f ++ (CancelInvoked <$> l)
        ∧ slot f' = slot f ∧ callbacks_ f' = callbacks_ f
        ∧ registration_ f' = registration_ f
        ∧ cancel_callbacks_ f' = cancel_callbacks_ f
        ∧ world f' = world f
        ∧ (∀ x nd, x ∈ l → heap f !! x = Some nd →
             callback nd = Some UnlinkSelf → heap f' !! x = None).
Proof.
  intros (Hnd & hd & Hhd & Hch & _).
  apply NoDup_cons in Hnd as [Hhead Hnd].
  unfold RunCancelCallbacks. rewrite Hhd. simpl.
  destruct (RunCancelCallbacks_loop_chain (cancel_callbacks_ f) l
              (size (heap f)) (heap f) (cancel_callbacks_ f) (next hd) (log f)
              (chain_length_le_size _ _ _ _ _ Hnd Hch) Hnd Hhead Hhead
              (mk_is_Some _ _ Hhd) (mk_is_Some _ _ Hhd) Hch)
    as (h' & -> & _ & Hgone).
  simpl. eexists. split; [reflexivity|]. simpl. done.
Qed.

(** C10.  [RunCancelCallbacks] reads the [next] pointer of a node before it
    calls the node's callback.  So whatever each callback does to the list,
    leave it alone or destroy its own registration token during the call,
    the traversal ends, and every node linked at its start is called exactly
    once, in list order; the nodes whose callback destroyed the token are
    gone from the storage. *)
Theorem RunCancelCallbacks_each_once (f : PythonFuture World) (l : list nat) :
  cancel_list (heap f) (cancel_callbacks_ f) l →
  ∃ f', RunCancelCallbacks f = Some f'
        ∧ log f' = log f ++ (CancelInvoked <$> l)
        ∧ cancel_invocations (log f') = cancel_invocations (log f) ++ l
        ∧ (∀ x nd, x ∈ l → heap f !! x = Some nd →
             callback nd = Some UnlinkSelf → heap f' !! x = None).
Proof.
  intros Hl.
  destruct (RunCancelCallbacks_frame f l Hl)
    as (f' & Hrun & Hlog & _ & _ & _ & _ & _ & Hgone).
  exists f'. split; [exact Hrun|]. split; [exact Hlog|]. split; [|exact Hgone].
  rewrite Hlog, cancel_invocations_app, cancel_invocations_cancel_events. done.
Qed.

End CancelFacts.

(** * The channel: cancellation and registration *)

Section ChannelFacts.
Context {World : Type}.
Variable py_outcome : nat → CallEnd.
Variable py_effect : nat → World → World.

Lemma pending_or_terminal (f : PythonFuture World) :
  slot f = Unset ∨ slot f ≠ Unset.
Proof. destruct (slot f); [by left | by right | by right]. Qed.

Lemma cancel_terminal (f : PythonFuture World) :
  slot f ≠ Unset → cancel py_outcome py_effect f = Some f.
Proof. unfold cancel, done. by destruct (slot f). Qed.

Lemma cancel_pending (f : PythonFuture World) (l : list nat) :
  slot f = Unset → cancel_list (heap f) (cancel_callbacks_ f) l →
  ∃ f', cancel py_outcome py_effect f = Some f'
        ∧ slot f' = Cancelled
        ∧ callbacks_ f' = []
        ∧ log f' = log f ++ (CancelInvoked <$> l)
                         ++ (callbacks_ f ≫= dispatch_events py_outcome).
Proof.
  intros Hu Hl. unfold cancel, done. rewrite Hu.
  destruct (RunCancelCallbacks_frame (with_slot Cancelled f) l Hl)
    as (f1 & -> & Hlog & Hslot & Hcbs & _).
  simpl.
  destruct (RunCallbacks_frame py_outcome py_effect f1) as (Hl2 & Hs2 & Hc2 & _).
  eexists. split; [reflexivity|].
  rewrite Hs2, Hc2, Hl2, Hlog, Hslot, Hcbs. simpl.
  by rewrite <- (assoc_L (++)).
Qed.

(** On a terminal future every call succeeds, leaves the slot as it is and
    fires no cancel callback. *)
Lemma step_terminal (f : PythonFuture World) (op : Op) :
  slot f ≠ Unset →
  ∃ f', step py_outcome py_effect f op = Some f'
        ∧ slot f' = slot f
        ∧ cancel_invocations (log f') = cancel_invocations (log f).
Proof.
  intros Hf. destruct op as [cb|cb|v|e|]; simpl.
  - eexists. split; [reflexivity|]. unfold add_done_callback, done.
    destruct (slot f) eqn:Hs; [done| |]; simpl;
      by rewrite cancel_invocations_app, app_nil_r.
  - eexists. split; [reflexivity|].
    destruct (remove_done_callback_fields cb f) as (_ & _ & _ & -> & -> & _).
    done.
  - eexists. split; [reflexivity|]. unfold set_result.
    by rewrite SetResult_terminal.
  - eexists. split; [reflexivity|]. unfold set_exception.
    by rewrite SetResult_terminal.
  - exists f. by rewrite cancel_terminal.
Qed.

Lemma run_terminal (ops : list Op) (f : PythonFuture World) :
  slot f ≠ Unset →
  ∃ f', run py_outcome py_effect ops f = Some f'
        ∧ slot f' = slot f
        ∧ cancel_invocations (log f') = cancel_invocations (log f).
Proof.
  revert f. induction ops as [|op ops IH]; intros f Hf; simpl.
  - by exists f.
  - destruct (step_terminal f op Hf) as (f1 & -> & Hs1 & Hc1). simpl.
    destruct (IH f1) as (f2 & Hrun & Hs2 & Hc2); [by rewrite Hs1|].
    exists f2. by rewrite Hrun, Hs2, Hs1, Hc2, Hc1.
Qed.

(** C4.  [cancel] on a pending future makes it cancelled, calls every
    registered cancel callback once, in list order, and after them the done
    callbacks; a later [cancel] changes nothing.  [cancel] on a terminal
    future changes nothing.  Once a producer write has been made on a
    pending future, no later call fires a cancel callback. *)
Theorem cancel_fires_once :
  (∀ (f : PythonFuture World) (l : list nat),
     slot f = Unset → cancel_list (heap f) (cancel_callbacks_ f) l →
     ∃ f', cancel py_outcome py_effect f = Some f'
           ∧ slot f' = Cancelled ∧ cancelled f' = true ∧ done f' = true
           ∧ log f' = log f ++ (CancelInvoked <$> l)
                            ++ (callbacks_ f ≫= dispatch_events py_outcome)
           ∧ cancel_invocations (log f') = cancel_invocations (log f) ++ l
           ∧ cancel py_outcome py_effect f' = Some f')
  ∧ (∀ f : PythonFuture World,
       done f = true → cancel py_outcome py_effect f = Some f)
  ∧ (∀ (f : PythonFuture World) (op : Op) (ops : list Op),
       slot f = Unset → is_write op = true →
       ∃ f', run py_outcome py_effect (op :: ops) f = Some f'
             ∧ slot f' = written op
             ∧ cancel_invocations (log f') = cancel_invocations (log f)).
Proof.
  split; [|split].
  - intros f l Hu Hl.
    destruct (cancel_pending f l Hu Hl) as (f' & Hc & Hs & Hcb & Hlog).
    exists f'. split; [exact Hc|]. split; [exact Hs|].
    unfold cancelled, done. rewrite Hs.
    split; [done|]. split; [done|]. split; [exact Hlog|]. split.
    + rewrite Hlog, !cancel_invocations_app, cancel_invocations_cancel_events,
        cancel_invocations_dispatch, app_nil_r. done.
    + apply cancel_terminal. by rewrite Hs.
  - intros f Hd. apply cancel_terminal. unfold done in Hd.
    by destruct (slot f).
  - intros f op ops Hu Hop.
    destruct (step_write py_outcome py_effect op f Hop) as (v & Hw & Hstep).
    simpl. rewrite Hstep. simpl.
    rewrite SetResult_pending by done.
    destruct (RunCallbacks_frame py_outcome py_effect (with_slot (Completed v) f))
      as (Hl1 & Hs1 & _).
    simpl in Hl1, Hs1.
    destruct (run_terminal ops
                (RunCallbacks py_outcome py_effect (with_slot (Completed v) f)))
      as (f' & Hrun & Hs & Hc); [by rewrite Hs1|].
    exists f'. split; [exact Hrun|]. split; [by rewrite Hs, Hs1, Hw|].
    rewrite Hc, Hl1, cancel_invocations_app, cancel_invocations_dispatch,
      app_nil_r. done.
Qed.

(** Every call other than a removal keeps the account of the done
    callbacks: invoked so far, followed by queued, is what it was followed
    by the callback this call registers. *)
Lemma step_accounts (f : PythonFuture World) (op : Op) :
  is_remove op = false →
  (slot f ≠ Unset → callbacks_ f = []) →
  (slot f = Unset → ∃ l, cancel_list (heap f) (cancel_callbacks_ f) l) →
  ∃ f', step py_outcome py_effect f op = Some f'
        ∧ (slot f' ≠ Unset → callbacks_ f' = [])
        ∧ (slot f' = Unset → ∃ l, cancel_list (heap f') (cancel_callbacks_ f') l)
        ∧ done_invocations (log f') ++ callbacks_ f'
          = done_invocations (log f) ++ callbacks_ f ++ added [op]
        ∧ (slot f' = Unset → done_invocations (log f') = done_invocations (log f)).
Proof.
  intros Hop Hq Hwf.
  assert (Hwrite : ∀ v, ∃ f',
    Some (SetResult py_outcome py_effect v f) = Some f'
    ∧ (slot f' ≠ Unset → callbacks_ f' = [])
    ∧ (slot f' = Unset → ∃ l, cancel_list (heap f') (cancel_callbacks_ f') l)
    ∧ done_invocations (log f') ++ callbacks_ f'
      = done_invocations (log f) ++ callbacks_ f ++ []
    ∧ (slot f' = Unset → done_invocations (log f') = done_invocations (log f))).
  { intros v. eexists. split; [reflexivity|].
    destruct (pending_or_terminal f) as [Hu|Hn].
    - rewrite SetResult_pending by done.
      destruct (RunCallbacks_frame py_outcome py_effect (with_slot (Completed v) f))
        as (Hl1 & Hs1 & Hc1 & _).
      simpl in Hl1, Hs1. rewrite Hs1, Hc1, Hl1.
      rewrite done_invocations_app, done_invocations_dispatch, !app_nil_r.
      done.
    - rewrite SetResult_terminal by done.
      rewrite (Hq Hn), !app_nil_r. done. }
  destruct op as [cb|cb|v|e|]; simpl in *; try done.
  - eexists. split; [reflexivity|]. unfold add_done_callback, done.
    destruct (slot f) eqn:Hs; simpl.
    + rewrite Hs. split; [done|]. split; [intros _; by apply Hwf|].
      by rewrite (assoc_L (++)).
    + rewrite Hs. rewrite (Hq ltac:(done)).
      rewrite done_invocations_app, !app_nil_r. done.
    + rewrite Hs. rewrite (Hq ltac:(done)).
      rewrite done_invocations_app, !app_nil_r. done.
  - apply Hwrite.
  - apply Hwrite.
  - destruct (pending_or_terminal f) as [Hu|Hn].
    + destruct (Hwf Hu) as [l Hl].
      destruct (cancel_pending f l Hu Hl) as (f' & -> & Hs & Hc & Hlog).
      exists f'. split; [done|]. rewrite Hs, Hc, Hlog.
      rewrite !done_invocations_app, done_invocations_cancel_events,
        done_invocations_dispatch, !app_nil_r.
      done.
    + rewrite cancel_terminal by done. exists f.
      rewrite (Hq Hn), !app_nil_r. done.
Qed.

Lemma run_accounts (ops : list Op) (f : PythonFuture World) :
  Forall (λ op, is_remove op = false) ops →
  (slot f ≠ Unset → callbacks_ f = []) →
  (slot f = Unset → ∃ l, cancel_list (heap f) (cancel_callbacks_ f) l) →
  ∃ f', run py_outcome py_effect ops f = Some f'
        ∧ (slot f' ≠ Unset → callbacks_ f' = [])
        ∧ done_invocations (log f') ++ callbacks_ f'
          = done_invocations (log f) ++ callbacks_ f ++ added ops
        ∧ (slot f' = Unset → done_invocations (log f') = done_invocations (log f)).
Proof.
  intros Hops. revert f.
  induction Hops as [|op ops Hop _ IH]; intros f Hq Hwf.
  - exists f. simpl. by rewrite !app_nil_r.
  - assert (Hadded : added (op :: ops) = added [op] ++ added ops).
    { unfold added. by rewrite <- omap_app. }
    rewrite Hadded. cbn [run].
    destruct (step_accounts f op Hop Hq Hwf)
      as (f1 & -> & Hq1 & Hwf1 & Hacc1 & Hpend1).
    cbn [mbind option_bind].
    destruct (IH f1 Hq1 Hwf1) as (f2 & Hrun & Hq2 & Hacc2 & Hpend2).
    exists f2. split; [exact Hrun|]. split; [exact Hq2|].
    split.
    + rewrite Hacc2, (assoc_L (++) _ _ (added ops)), (assoc_L (++)), Hacc1.
      by rewrite <- !(assoc_L (++)).
    + intros Hu. rewrite (Hpend2 Hu).
      destruct (pending_or_terminal f1) as [Hu1|Hn1]; [by apply Hpend1|].
      (* a terminal slot never becomes pending again *)
      exfalso.
      destruct (run_terminal ops f1 Hn1) as (f2' & Hrun' & Hs' & _).
      rewrite Hrun in Hrun'. injection Hrun' as <-. congruence.
Qed.

(** C3.  Take a pending future and any sequence of calls without removals.
    While the future is still pending nothing has been invoked and the
    vector holds the registered callbacks in order.  Once it is terminal the
    vector is empty and the invocations are exactly the registered callbacks,
    each once, in registration order.  A callback added to a terminal future
    is invoked within [add_done_callback] and is not stored. *)
Theorem done_callbacks_fire_once :
  (∀ (f0 : PythonFuture World) (ops : list Op) (l0 : list nat),
     slot f0 = Unset → cancel_list (heap f0) (cancel_callbacks_ f0) l0 →
     Forall (λ op, is_remove op = false) ops →
     ∃ f, run py_outcome py_effect ops f0 = Some f
          ∧ (done f = false →
               done_invocations (log f) = done_invocations (log f0)
               ∧ callbacks_ f = callbacks_ f0 ++ added ops)
          ∧ (done f = true →
               done_invocations (log f)
               = done_invocations (log f0) ++ callbacks_ f0 ++ added ops
               ∧ callbacks_ f = []))
  ∧ (∀ (f : PythonFuture World) (cb : nat),
       done f = true →
       let f' := (add_done_callback py_outcome py_effect cb f).1 in
       log f' = log f ++ [DoneInvoked cb] ∧ callbacks_ f' = callbacks_ f
       ∧ slot f' = slot f).
Proof.
  split.
  - intros f0 ops l0 Hu Hl Hops.
    destruct (run_accounts ops f0 Hops) as (f & Hrun & Hq & Hacc & Hpend).
    { intros Hn. done. }
    { intros _. by exists l0. }
    exists f. split; [exact Hrun|]. unfold done. split.
    + intros Hd. assert (Hs : slot f = Unset) by (by destruct (slot f)).
      rewrite (Hpend Hs) in Hacc |- *. split; [done|].
      by apply (inj (app _)) in Hacc.
    + intros Hd. assert (Hs : slot f ≠ Unset) by (by destruct (slot f)).
      rewrite (Hq Hs), app_nil_r in Hacc. by rewrite (Hq Hs).
  - intros f cb Hd f'. subst f'. unfold add_done_callback. rewrite Hd. done.
Qed.

(** C7.  On a cancelled future [exception] returns an instance of
    [CancelledError] and raises nothing; on a future completed with an error
    it returns the stored error; on a future completed with a value it
    returns none. *)
Theorem exception_returns (f : PythonFuture World) :
  (slot f = Cancelled →
     exception f = Some GetCancelledError
     ∧ GetCancelledError = PyExcInstance CancelledErrorCls PyNone)
  ∧ (∀ v e, slot f = Completed v → value v = None → error_value v = Some e →
       exception f = Some e)
  ∧ (∀ v r, slot f = Completed v → value v = Some r →
       exception f = Some PyNone)
  ∧ (∀ l, slot f = Unset → cancel_list (heap f) (cancel_callbacks_ f) l →
       ∃ f', cancel py_outcome py_effect f = Some f'
             ∧ exception f' = Some GetCancelledError)
  ∧ (∀ cls arg, slot f = Unset → PyExceptionClass_Check (PyType cls) = true →
       exception (set_exception py_outcome py_effect (PyExcInstance cls arg) f)
       = Some (PyExcInstance cls arg))
  ∧ (∀ r, slot f = Unset →
       exception (set_result py_outcome py_effect r f) = Some PyNone).
Proof.
  unfold exception.
  split; [|split; [|split; [|split; [|split]]]].
  - by intros ->.
  - by intros v e -> -> ->.
  - by intros v r -> ->.
  - intros l Hu Hl. destruct (cancel_pending f l Hu Hl) as (f' & Hc & Hs & _).
    exists f'. by rewrite Hs.
  - intros cls arg Hu Hcls. unfold set_exception.
    rewrite SetResult_pending by done.
    destruct (RunCallbacks_frame py_outcome py_effect
                (with_slot (Completed
                   {| value := None;
                      error_type := Some (PyErr_SetObject (Py_TYPE (PyExcInstance cls arg))
                                            (PyExcInstance cls arg)).1;
                      error_value := Some (PyErr_SetObject (Py_TYPE (PyExcInstance cls arg))
                                             (PyExcInstance cls arg)).2;
                      error_traceback := None |}) f))
      as (_ & -> & _).
    simpl. unfold PyErr_SetObject. simpl in Hcls |- *. by rewrite Hcls.
  - intros r Hu. unfold set_result. rewrite SetResult_pending by done.
    destruct (RunCallbacks_frame py_outcome py_effect
                (with_slot (written (OpSetResult r)) f)) as (_ & Hs & _).
    simpl in Hs. by rewrite Hs.
Qed.

End ChannelFacts.

(** * The asyncio bridge *)

Lemma PyErr_SetObject_not_none (e : PyObject) :
  is_none (PyErr_SetObject (Py_TYPE e) e).2 = false.
Proof. by destruct e as [| | |[]]. Qed.


Section BridgeFacts.
Variable bridge_cb : nat.
Variable user_outcome : nat → CallEnd.

Local Abbreviation outcome := (bridge_outcome bridge_cb user_outcome).
Local Abbreviation effect := (bridge_effect bridge_cb).

Lemma dispatch_loop_world (l : list nat) (f : PythonFuture Loop) :
  world (foldl (invoke_logged outcome effect) f l)
  = foldl (λ w cb, effect cb w) (world f) l.
Proof.
  revert f. induction l as [|cb l IH]; intros f; simpl; [done|].
  rewrite IH. unfold invoke_logged. by destruct (outcome cb).
Qed.

Lemma user_callbacks_leave_loop (l : list nat) (lp : Loop) :
  bridge_cb ∉ l → foldl (λ w cb, effect cb w) lp l = lp.
Proof.
  revert lp. induction l as [|cb l IH]; intros lp; [done|].
  rewrite not_elem_of_cons. intros [Hcb Hl]. simpl.
  unfold bridge_effect at 2. rewrite bool_decide_eq_false_2 by done.
  by apply IH.
Qed.

Lemma complete_awaitable_done (f : PythonFuture Loop) :
  aw_done (awaitable_future (world f)) = true →
  complete_awaitable f = Some (Returned f).
Proof. unfold complete_awaitable. by intros ->. Qed.

Lemma complete_awaitable_pending (f : PythonFuture Loop) :
  awaitable_future (world f) = APending →
  (slot f = Cancelled →
     complete_awaitable f
     = Some (Returned (with_world (aw_complete ACancelled (world f)) f)))
  ∧ (∀ v e, slot f = Completed v → value v = None → error_value v = Some e →
       aw_accepts e = true →
       complete_awaitable f
       = Some (Returned (with_world (aw_complete (AException e) (world f)) f)))
  ∧ (∀ v r, slot f = Completed v → value v = Some r →
       complete_awaitable f
       = Some (Returned (with_world (aw_complete (AResult r) (world f)) f))).
Proof.
  intros Hp.
  unfold complete_awaitable, cancelled, exception, result, cast,
    aw_cancel, aw_set_exception, aw_set_result.
  rewrite Hp. simpl. split; [|split].
  - by intros ->.
  - intros v e -> -> -> He. simpl.
    unfold aw_accepts in He. apply andb_true_iff in He as [Hinst Hstop].
    apply negb_true_iff in Hstop.
    destruct e as [| | |cls arg]; try done.
    by destruct cls.
  - by intros v r -> ->.
Qed.

(** An error the host awaitable refuses: the closure fails with the host's
    [TypeError]. *)
Lemma complete_awaitable_refused (f : PythonFuture Loop)
    (v : PythonValueOrException) (cls : PyClass) (arg : PyObject) :
  awaitable_future (world f) = APending → slot f = Completed v →
  value v = None → error_value v = Some (PyExcInstance cls arg) →
  aw_accepts (PyExcInstance cls arg) = false →
  complete_awaitable f = Some (Raised (PyExcInstance TypeErrorCls PyNone)).
Proof.
  intros Hp Hs Hv He Hacc.
  unfold complete_awaitable, cancelled, exception, aw_set_exception.
  rewrite Hp, Hs, Hv, He. unfold aw_accepts in Hacc.
  by destruct cls.
Qed.


(** One turn of the loop on such a queue runs the closure. *)
Lemma run_ready_completes (f2 : PythonFuture Loop) (a : Awaitable) :
  world f2 = {| awaitable_future := APending;
                awaitable_callbacks := [CancelSource];
                ready := [CompleteAwaitable] |} →
  (∀ f0 : PythonFuture Loop,
     awaitable_future (world f0) = APending → slot f0 = slot f2 →
     complete_awaitable f0
     = Some (Returned (with_world (aw_complete a (world f0)) f0))) →
  ∃ f3, run_ready bridge_cb user_outcome f2 = Some f3
        ∧ slot f3 = slot f2
        ∧ awaitable_future (world f3) = a.
Proof.
  intros Hw Hclosure. unfold run_ready. rewrite Hw. simpl.
  rewrite Hclosure by done. simpl. eexists. split; [reflexivity|]. done.
Qed.


End BridgeFacts.

(** * Instances *)

Lemma example_cancel_list : cancel_list example_heap 0 [1; 2; 3].
Proof.
  split.
  - compute_done.
  - exists {| next := 1; prev := 3; callback := None |}.
    split; [vm_compute; reflexivity|]. split; [|reflexivity].
    simpl. split; [reflexivity|]. eexists.
    split; [vm_compute; reflexivity|]. split; [reflexivity|].
    split; [by eexists|].
    simpl. split; [reflexivity|]. eexists.
    split; [vm_compute; reflexivity|]. split; [reflexivity|].
    split; [by eexists|].
    simpl. split; [reflexivity|]. eexists.
    split; [vm_compute; reflexivity|]. split; [reflexivity|].
    split; [by eexists|].
    reflexivity.
Qed.

(** Three tokens, two of which destroy themselves while being called: all
    three are called, in order. *)
Lemma RunCancelCallbacks_each_once_witness :
  ∃ f', RunCancelCallbacks example_future = Some f'
        ∧ log f' = [CancelInvoked 1; CancelInvoked 2; CancelInvoked 3]
        ∧ heap f' !! 2 = None ∧ heap f' !! 3 = None.
Proof.
  destruct (RunCancelCallbacks_each_once example_future [1; 2; 3]
              example_cancel_list) as (f' & Hrun & Hlog & _ & Hgone).
  exists f'. split; [exact Hrun|]. split; [exact Hlog|]. split.
  - apply (Hgone 2 {| next := 3; prev := 1; callback := Some UnlinkSelf |}).
    + compute_done.
    + vm_compute. reflexivity.
    + reflexivity.
  - apply (Hgone 3 {| next := 0; prev := 2; callback := Some UnlinkSelf |}).
    + compute_done.
    + vm_compute. reflexivity.
    + reflexivity.
Defined.

(** A result, then an exception, then another result: the first stays. *)
Lemma first_write_wins_witness :
  ∃ f1, step example_outcome example_effect example_future (OpSetResult (PyOpaque 42))
        = Some f1
        ∧ run example_outcome example_effect
            [OpSetResult (PyOpaque 42);
             OpSetException (PyExcInstance (UserExcCls 1) PyNone);
             OpSetResult (PyOpaque 43)] example_future = Some f1
        ∧ done f1 = true
        ∧ result f1 = Some (Returned (PyOpaque 42)).
Proof.
  destruct (first_write_wins example_outcome example_effect
              (OpSetResult (PyOpaque 42))
              [OpSetException (PyExcInstance (UserExcCls 1) PyNone);
               OpSetResult (PyOpaque 43)]
              example_future eq_refl)
    as (f1 & Hstep & Hrun & Hdone & Hslot & _).
  { repeat constructor. }
  exists f1. split; [exact Hstep|]. split; [exact Hrun|]. split; [exact Hdone|].
  unfold result. rewrite (Hslot eq_refl). reflexivity.
Defined.

(** Registered 7, 8, 7, then 1; completed; then 8 added: each fires once, in
    that order, although 8 raises. *)
Lemma done_callbacks_fire_once_witness :
  ∃ f, run example_outcome example_effect
         [OpAddDone 1; OpSetResult PyNone; OpAddDone 8; OpCancel] example_future
       = Some f
       ∧ done_invocations (log f) = [7; 8; 7; 1; 8]
       ∧ callbacks_ f = [].
Proof.
  destruct (proj1 (done_callbacks_fire_once example_outcome example_effect)
              example_future
              [OpAddDone 1; OpSetResult PyNone; OpAddDone 8; OpCancel]
              [1; 2; 3] eq_refl example_cancel_list)
    as (f & Hrun & _ & Hdone).
  { repeat constructor. }
  exists f. split; [exact Hrun|]. apply Hdone.
  vm_compute in Hrun. injection Hrun as <-. reflexivity.
Defined.

(** Cancelling the example: the three cancel callbacks, then the done
    callbacks. *)
Lemma cancel_fires_once_witness :
  ∃ f', cancel example_outcome example_effect example_future = Some f'
        ∧ cancelled f' = true
        ∧ cancel_invocations (log f') = [1; 2; 3]
        ∧ done_invocations (log f') = [7; 8; 7]
        ∧ cancel example_outcome example_effect f' = Some f'.
Proof.
  destruct (proj1 (cancel_fires_once example_outcome example_effect)
              example_future [1; 2; 3] eq_refl example_cancel_list)
    as (f' & Hc & _ & Hcd & _ & Hlog & Hci & Hagain).
  exists f'. split; [exact Hc|]. split; [exact Hcd|]. split; [exact Hci|].
  split; [|exact Hagain].
  rewrite Hlog. reflexivity.
Defined.

(** Removing the callback registered twice, then one that is not there. *)
Lemma remove_done_callback_spec_witness :
  callbacks_ (remove_done_callback 7 example_future).1 = [8]
  ∧ (remove_done_callback 7 example_future).2 = 2
  ∧ (remove_done_callback 9 example_future).2 = 0
  ∧ registration_
      (remove_done_callback 8 (remove_done_callback 7 example_future).1).1
    = false.
Proof.
  destruct (remove_done_callback_spec 7 example_future)
    as (H1 & H2 & _).
  destruct (remove_done_callback_spec 9 example_future)
    as (_ & _ & H3 & _).
  destruct (remove_done_callback_spec 8 (remove_done_callback 7 example_future).1)
    as (H4 & _ & _ & H5 & _).
  split; [rewrite H1; reflexivity|].
  split; [rewrite H2; reflexivity|].
  split.
  - apply H3. compute_done.
  - apply H5. rewrite H4, H1. reflexivity.
Defined.

(** Dispatch over 7, 8, 7 where 8 raises. *)
Lemma RunCallbacks_isolates_failures_witness :
  done_invocations (log (RunCallbacks example_outcome example_effect example_future))
  = [7; 8; 7]
  ∧ result (set_result example_outcome example_effect (PyOpaque 5) example_future)
    = Some (Returned (PyOpaque 5)).
Proof.
  destruct (RunCallbacks_isolates_failures example_outcome example_effect
              example_future) as (_ & H1 & _ & _ & H2).
  split; [exact H1|]. exact (proj2 (H2 (PyOpaque 5) eq_refl)).
Defined.

(** [exception] after a cancellation. *)
Lemma exception_returns_witness :
  ∃ f', cancel example_outcome example_effect example_future = Some f'
        ∧ exception f' = Some (PyExcInstance CancelledErrorCls PyNone).
Proof.
  exact (proj1 (proj2 (proj2 (proj2
           (exception_returns example_outcome example_effect example_future))))
           [1; 2; 3] eq_refl example_cancel_list).
Defined.



(** * Further properties of the wait loop *)

(** X1.  The wait is still blocked at the end of a sequence of wake-ups
    exactly when every one of them was a spurious interrupt: any success,
    any timeout and any interrupt with a raising signal handler ends it. *)
Theorem InterruptibleWaitImpl_blocked_iff (pf : bool) (obs : list WaitIteration) :
  InterruptibleWaitImpl pf obs = None ↔ Forall spurious obs.
Proof.
  induction obs as [|it obs IH]; simpl.
  - split; [constructor | done].
  - unfold PyErr_CheckSignals. split.
    + destruct (wait_result it) eqn:Hw.
      * by destruct (pf && future_cancelled it).
      * destruct (pending_signal it) eqn:Hs; simpl; [done|].
        intros Hrest. constructor; [by split | by apply IH].
      * done.
    + intros Hall. apply Forall_cons in Hall as [[Hw Hs] Hrest].
      rewrite Hw, Hs. simpl. by apply IH.
Qed.

(** Where an outcome of the wait comes from. *)
Lemma wait_outcome_cause (pf : bool) (obs : list WaitIteration) :
  (∀ e, InterruptibleWaitImpl pf obs = Some (Raised e) →
     (e = PyType TimeoutErrorCls ∧ ∃ it, it ∈ obs ∧ wait_result it = kTimeout)
     ∨ (e = PyType CancelledErrorCls ∧ pf = true
        ∧ ∃ it, it ∈ obs ∧ wait_result it = kSuccess ∧ future_cancelled it = true)
     ∨ (∃ it, it ∈ obs ∧ wait_result it = kInterrupt ∧ pending_signal it = Some e))
  ∧ (InterruptibleWaitImpl pf obs = Some (Returned tt) →
       ∃ it, it ∈ obs ∧ wait_result it = kSuccess
             ∧ (pf = false ∨ future_cancelled it = false)).
Proof.
  induction obs as [|it obs [IHe IHr]]; simpl; [done|].
  unfold PyErr_CheckSignals, error_indicator.
  destruct (wait_result it) eqn:Hw.
  - destruct (pf && future_cancelled it) eqn:Hc.
    + apply andb_true_iff in Hc as [Hpf Hc].
      split; [|done]. intros e [= <-]. right. left.
      split; [done|]. split; [done|]. exists it. split; [by left | done].
    + apply andb_false_iff in Hc.
      split; [done|]. intros _. exists it. split; [by left | done].
  - destruct (pending_signal it) as [e'|] eqn:Hs; simpl.
    + split; [|done]. intros e [= <-]. right. right. exists it.
      split; [by left | done].
    + split.
      * intros e He.
        destruct (IHe e He)
          as [(-> & it' & Hin & Ht)
             |[(-> & Hpf & it' & Hin & Ht & Hc)
              |(it' & Hin & Ht & Hsig)]].
        -- left. split; [done|]. exists it'. split; [by right | done].
        -- right. left. split; [done|]. split; [done|].
           exists it'. split; [by right | done].
        -- right. right. exists it'. split; [by right | done].
      * intros Hr. destruct (IHr Hr) as (it' & Hin & Ht & Hc).
        exists it'. split; [by right | done].
  - split; [|done]. intros e [= <-]. left. split; [done|]. exists it.
    split; [by left | done].
Qed.

(** X2.  Every failure of the wait has a cause among the wake-ups seen: a
    [TimeoutError] raised by the wait itself comes from a timed-out wait, a
    [CancelledError] from a successful wait on an attached future that
    reports cancelled, and anything else is the error a signal handler
    raised after an interrupted wait.  A normal return comes from a
    successful wait. *)
Theorem InterruptibleWaitImpl_causes (pf : bool) (obs : list WaitIteration) :
  (∀ e, InterruptibleWaitImpl pf obs = Some (Raised e) →
     (e = PyType TimeoutErrorCls ∧ ∃ it, it ∈ obs ∧ wait_result it = kTimeout)
     ∨ (e = PyType CancelledErrorCls ∧ pf = true
        ∧ ∃ it, it ∈ obs ∧ wait_result it = kSuccess ∧ future_cancelled it = true)
     ∨ (∃ it, it ∈ obs ∧ wait_result it = kInterrupt ∧ pending_signal it = Some e))
  ∧ (InterruptibleWaitImpl pf obs = Some (Returned tt) →
       ∃ it, it ∈ obs ∧ wait_result it = kSuccess
             ∧ (pf = false ∨ future_cancelled it = false)).
Proof. exact (wait_outcome_cause pf obs). Qed.

Lemma InterruptibleWaitImpl_causes_witness :
  ∃ it, it ∈ [ {| wait_result := kInterrupt; future_cancelled := false;
                  pending_signal := None |};
               {| wait_result := kSuccess; future_cancelled := false;
                  pending_signal := None |} ]
        ∧ wait_result it = kSuccess
        ∧ (true = false ∨ future_cancelled it = false).
Proof.
  exact (proj2 (InterruptibleWaitImpl_causes true
           [ {| wait_result := kInterrupt; future_cancelled := false;
                pending_signal := None |};
             {| wait_result := kSuccess; future_cancelled := false;
                pending_signal := None |} ]) eq_refl).
Defined.

(** X3.  Pending signals are consulted only after an interrupted wait: a
    wake-up that is a success or a timeout decides the outcome by itself,
    whatever signal is pending at that moment and whatever would be
    observed later. *)
Theorem InterruptibleWaitImpl_signal_only_on_interrupt (pf : bool)
    (it : WaitIteration) (post : list WaitIteration) :
  wait_result it ≠ kInterrupt →
  ∃ o, InterruptibleWaitImpl pf (it :: post) = Some o
       ∧ ∀ s post',
           InterruptibleWaitImpl pf
             ({| wait_result := wait_result it;
                 future_cancelled := future_cancelled it;
                 pending_signal := s |} :: post') = Some o.
Proof.
  intros Hw. simpl. destruct (wait_result it); [| done |].
  - destruct (pf && future_cancelled it); eexists; split; try reflexivity; done.
  - eexists. split; [reflexivity|]. done.
Qed.

Lemma InterruptibleWaitImpl_signal_only_on_interrupt_witness :
  ∃ o, InterruptibleWaitImpl false
         [ {| wait_result := kTimeout; future_cancelled := false;
              pending_signal := Some (PyExcInstance KeyboardInterruptCls PyNone) |} ]
       = Some o
       ∧ ∀ s post',
           InterruptibleWaitImpl false
             ({| wait_result := kTimeout; future_cancelled := false;
                 pending_signal := s |} :: post') = Some o.
Proof.
  apply (InterruptibleWaitImpl_signal_only_on_interrupt false
           {| wait_result := kTimeout; future_cancelled := false;
              pending_signal := Some (PyExcInstance KeyboardInterruptCls PyNone) |}
           []).
  simpl. discriminate.
Defined.

(** * The platform events *)

(** X4.  On Windows the timeout handed to the system call is 0 when the
    deadline has passed, the number of milliseconds left when that fits,
    and [INFINITE] otherwise; the conversion to [DWORD] never wraps.  So a
    finite deadline 4294967295 ms or more away waits as if there were
    none. *)
Theorem windows_timeout_clamps (deadline : absl.Time) (ms : Z) :
  (0 ≤ windows_timeout deadline ms ≤ INFINITE)%Z
  ∧ (is_InfiniteFuture deadline = true → windows_timeout deadline ms = INFINITE)
  ∧ (is_InfiniteFuture deadline = false →
       ((ms ≤ 0)%Z → windows_timeout deadline ms = 0%Z)
       ∧ ((0 ≤ ms ≤ INFINITE)%Z → windows_timeout deadline ms = ms)
       ∧ ((INFINITE ≤ ms)%Z → windows_timeout deadline ms = INFINITE)).
Proof.
  unfold windows_timeout, to_DWORD, INFINITE.
  destruct (is_InfiniteFuture deadline).
  - split; [lia|]. split; [done|]. done.
  - assert (Hmod : ∀ z, (0 ≤ z ≤ 4294967295)%Z → (z mod 2 ^ 32 = z)%Z).
    { intros z Hz. apply Z.mod_small. lia. }
    rewrite Hmod by lia.
    split; [lia|]. split; [done|]. intros _.
    split; [lia|]. split; lia.
Qed.

Lemma windows_timeout_clamps_witness :
  windows_timeout (absl.At 0) 5000000000 = INFINITE
  ∧ windows_timeout (absl.At 0) (-3) = 0%Z.
Proof.
  destruct (windows_timeout_clamps (absl.At 0) 5000000000) as (_ & _ & H1).
  destruct (windows_timeout_clamps (absl.At 0) (-3)) as (_ & _ & H2).
  split.
  - apply (H1 eq_refl). unfold INFINITE. lia.
  - apply (H2 eq_refl). lia.
Defined.

Section PlatformEventFacts.
Variable ETIMEDOUT : Z.

(** The POSIX wait reports success exactly when the semaphore call
    returned 0, whatever [errno] still holds; it reports a timeout only for
    a finite deadline, a failed call and [errno = ETIMEDOUT]; every other
    failure is an interrupt. *)
Lemma posix_Wait_cases (deadline : absl.Time) (ret errno : Z) :
  (posix_Wait ETIMEDOUT deadline ret errno = kSuccess ↔ ret = 0%Z)
  ∧ (posix_Wait ETIMEDOUT deadline ret errno = kTimeout ↔
       is_InfiniteFuture deadline = false ∧ ret ≠ 0%Z ∧ errno = ETIMEDOUT)
  ∧ (posix_Wait ETIMEDOUT deadline ret errno = kInterrupt ↔
       ret ≠ 0%Z ∧ (is_InfiniteFuture deadline = true ∨ errno ≠ ETIMEDOUT)).
Proof.
  unfold posix_Wait.
  destruct (is_InfiniteFuture deadline);
    destruct (bool_decide_reflect (ret = 0%Z));
    try destruct (bool_decide_reflect (errno = ETIMEDOUT));
    intuition congruence.
Qed.

(** X5.  On macOS an event that is already set is reported as success at
    once, for any deadline; a wait whose event is found set afterwards is a
    success even if the timed wait ran out; an infinite deadline never
    gives a timeout. *)
Theorem apple_Wait_results (deadline : absl.Time) (set_entry : bool)
    (timedwait_ret : Z) (set_woken : bool) :
  (set_entry = true →
     apple_Wait ETIMEDOUT deadline set_entry timedwait_ret set_woken = kSuccess)
  ∧ (apple_Wait ETIMEDOUT deadline set_entry timedwait_ret set_woken = kSuccess
     ↔ set_entry = true ∨ set_woken = true)
  ∧ (apple_Wait ETIMEDOUT deadline set_entry timedwait_ret set_woken = kTimeout
     ↔ set_entry = false ∧ set_woken = false
       ∧ is_InfiniteFuture deadline = false ∧ timedwait_ret = ETIMEDOUT).
Proof.
  unfold apple_Wait.
  destruct set_entry, set_woken, (is_InfiniteFuture deadline); simpl;
    try destruct (bool_decide_reflect (timedwait_ret = ETIMEDOUT));
    intuition congruence.
Qed.

(** X6.  A blocking call made with neither a timeout nor a deadline never
    fails with a timeout of its own on POSIX: whatever the semaphore calls
    report, a failure of the wait is a cancellation seen on the attached
    future or the error raised by a signal handler. *)
Theorem posix_wait_without_deadline_never_times_out
    (double Duration : Type) (Seconds : double → Duration)
    (time_plus : absl.Time → Duration → absl.Time) (Now : absl.Time)
    (pf : bool) (wakes : list PosixWake) (e : PyObject) :
  let deadline := GetWaitDeadline double Duration Seconds time_plus Now None None in
  InterruptibleWaitImpl pf (posix_iteration ETIMEDOUT deadline <$> wakes)
  = Some (Raised e) →
  (e = PyType CancelledErrorCls ∧ pf = true
   ∧ ∃ w, w ∈ wakes ∧ sem_ret w = 0%Z ∧ woke_cancelled w = true)
  ∨ (∃ w, w ∈ wakes ∧ sem_ret w ≠ 0%Z ∧ woke_signal w = Some e).
Proof.
  intros deadline He.
  destruct (proj1 (wait_outcome_cause pf _) e He)
    as [(_ & it & Hin & Hw)|[(-> & Hpf & it & Hin & Hw & Hc)|(it & Hin & Hw & Hs)]].
  - apply list_elem_of_fmap in Hin as (w & -> & _). simpl in Hw.
    apply posix_Wait_cases in Hw as (Hinf & _). done.
  - apply list_elem_of_fmap in Hin as (w & -> & Hin). simpl in Hw, Hc.
    apply posix_Wait_cases in Hw.
    left. repeat split; try done. by exists w.
  - apply list_elem_of_fmap in Hin as (w & -> & Hin). simpl in Hw, Hs.
    apply posix_Wait_cases in Hw as (Hret & _).
    right. by exists w.
Qed.

End PlatformEventFacts.

Lemma apple_Wait_results_witness :
  apple_Wait 60 (absl.At 0) true 60 false = kSuccess.
Proof.
  exact (proj1 (apple_Wait_results 60 (absl.At 0) true 60 false) eq_refl).
Defined.

Lemma posix_wait_without_deadline_never_times_out_witness :
  (∃ w, w ∈ [ {| sem_ret := (-1); sem_errno := 110; woke_cancelled := false;
                 woke_signal := Some (PyExcInstance KeyboardInterruptCls PyNone) |} ]
        ∧ sem_ret w = 0%Z ∧ woke_cancelled w = true)
  ∨ (∃ w, w ∈ [ {| sem_ret := (-1); sem_errno := 110; woke_cancelled := false;
                   woke_signal := Some (PyExcInstance KeyboardInterruptCls PyNone) |} ]
          ∧ sem_ret w ≠ 0%Z
          ∧ woke_signal w = Some (PyExcInstance KeyboardInterruptCls PyNone)).
Proof.
  destruct (posix_wait_without_deadline_never_times_out 110 unit unit
              (λ x, x) (λ t _, t) (absl.At 0) false
              [ {| sem_ret := (-1); sem_errno := 110; woke_cancelled := false;
                   woke_signal := Some (PyExcInstance KeyboardInterruptCls PyNone) |} ]
              (PyExcInstance KeyboardInterruptCls PyNone) eq_refl)
    as [(H & _)|H].
  - discriminate H.
  - right. exact H.
Defined.

(** * Further properties of the done callbacks *)

Section DoneCallbackExtras.
Context {World : Type}.
Variable py_outcome : nat → CallEnd.
Variable py_effect : nat → World → World.

Lemma filter_not_eq_idemp (cb : nat) (l : list nat) :
  filter (λ h, h ≠ cb) (filter (λ h, h ≠ cb) l) = filter (λ h, h ≠ cb) l.
Proof.
  apply filter_not_eq_id. intros Hin. apply list_elem_of_filter in Hin as [Hne _].
  done.
Qed.

Lemma filter_not_eq_comm (a b : nat) (l : list nat) :
  filter (λ h, h ≠ a) (filter (λ h, h ≠ b) l)
  = filter (λ h, h ≠ b) (filter (λ h, h ≠ a) l).
Proof.
  induction l as [|x l IH]; [done|].
  rewrite !(filter_cons _ x).
  destruct (decide (x ≠ b)) as [Hb|Hb], (decide (x ≠ a)) as [Ha|Ha];
    rewrite ?(filter_cons _ x);
    repeat (destruct (decide _); try done);
    by rewrite IH.
Qed.

(** X7.  Removing a callback a second time finds nothing: the second call
    returns 0 and leaves the future exactly as the first call left it. *)
Theorem remove_done_callback_idempotent (cb : nat) (f : PythonFuture World) :
  remove_done_callback cb (remove_done_callback cb f).1
  = ((remove_done_callback cb f).1, 0).
Proof.
  destruct (remove_done_callback_fields cb f)
    as (Hc & _ & Hr & Hs & Hl & Hh & Hd & Hw).
  destruct (remove_done_callback_fields cb (remove_done_callback cb f).1)
    as (Hc2 & Hn2 & Hr2 & Hs2 & Hl2 & Hh2 & Hd2 & Hw2).
  rewrite Hc, filter_not_eq_idemp in Hc2, Hn2, Hr2.
  apply injective_projections; simpl.
  - apply PythonFuture_eq; try done.
    + by rewrite Hc2, Hc.
    + rewrite Hr2, Hr. by destruct (filter _ _).
  - rewrite Hn2. lia.
Qed.

(** X8.  A removal accounts for every stored callback: the number it
    returns and the number it leaves add up to the number there was, and
    what it leaves does not contain the removed callback. *)
Theorem remove_done_callback_conserves (cb : nat) (f : PythonFuture World) :
  (length (callbacks_ (remove_done_callback cb f).1)
   + (remove_done_callback cb f).2)%nat = length (callbacks_ f)
  ∧ (cb ∉ callbacks_ (remove_done_callback cb f).1)
  ∧ (∀ x, x ≠ cb →
       (x ∈ callbacks_ (remove_done_callback cb f).1 ↔ x ∈ callbacks_ f)).
Proof.
  destruct (remove_done_callback_fields cb f) as (Hc & Hn & _).
  rewrite Hc, Hn.
  pose proof (filter_split_length (λ h, h = cb) (callbacks_ f)) as Hsplit.
  split; [lia|]. split.
  - intros Hin. apply list_elem_of_filter in Hin as [Hne _]. done.
  - intros x Hx. rewrite list_elem_of_filter.
    split; [by intros [_ Hin] | by intros Hin].
Qed.

(** X9.  Two removals can be made in either order: the future ends in the
    same state. *)
Theorem remove_done_callback_commutes (a b : nat) (f : PythonFuture World) :
  (remove_done_callback a (remove_done_callback b f).1).1
  = (remove_done_callback b (remove_done_callback a f).1).1.
Proof.
  destruct (remove_done_callback_fields b f)
    as (Hc1 & _ & Hr1 & Hs1 & Hl1 & Hh1 & Hd1 & Hw1).
  destruct (remove_done_callback_fields a (remove_done_callback b f).1)
    as (Hc2 & _ & Hr2 & Hs2 & Hl2 & Hh2 & Hd2 & Hw2).
  destruct (remove_done_callback_fields a f)
    as (Hc3 & _ & Hr3 & Hs3 & Hl3 & Hh3 & Hd3 & Hw3).
  destruct (remove_done_callback_fields b (remove_done_callback a f).1)
    as (Hc4 & _ & Hr4 & Hs4 & Hl4 & Hh4 & Hd4 & Hw4).
  rewrite Hc1 in Hc2, Hr2. rewrite Hc3 in Hc4, Hr4.
  apply PythonFuture_eq; try congruence.
  - rewrite Hc2, Hc4. apply filter_not_eq_comm.
  - rewrite Hr2, Hr4, Hr1, Hr3, (filter_not_eq_comm a b).
    destruct (filter (λ h, h ≠ b) (filter (λ h, h ≠ a) (callbacks_ f)))
      as [|x l] eqn:Hfinal; [done|].
    assert (Hx : x ∈ filter (λ h, h ≠ b) (filter (λ h, h ≠ a) (callbacks_ f))).
    { rewrite Hfinal. by left. }
    assert (Hxa : x ∈ filter (λ h, h ≠ a) (callbacks_ f)).
    { by apply list_elem_of_filter in Hx as [_ Hx]. }
    assert (Hxb : x ∈ filter (λ h, h ≠ b) (callbacks_ f)).
    { apply list_elem_of_filter in Hx as [Hnb Hx'].
      apply list_elem_of_filter in Hx' as [_ Hx'].
      apply list_elem_of_filter. done. }
    destruct (filter (λ h, h ≠ a) (callbacks_ f)); [by apply elem_of_nil in Hxa|].
    destruct (filter (λ h, h ≠ b) (callbacks_ f)); [by apply elem_of_nil in Hxb|].
    done.
Qed.

Lemma RunCallbacks_nothing_queued (f : PythonFuture World) :
  callbacks_ f = [] → RunCallbacks py_outcome py_effect f = f.
Proof.
  intros Hc. unfold RunCallbacks. rewrite Hc. simpl.
  apply PythonFuture_eq; done.
Qed.

(** X10.  The vector is consumed by the dispatch: run a second time,
    [RunCallbacks] invokes nothing and changes nothing, so no callback can
    fire twice through it. *)
Theorem RunCallbacks_idempotent (f : PythonFuture World) :
  RunCallbacks py_outcome py_effect (RunCallbacks py_outcome py_effect f)
  = RunCallbacks py_outcome py_effect f.
Proof.
  apply RunCallbacks_nothing_queued.
  by destruct (RunCallbacks_frame py_outcome py_effect f) as (_ & _ & -> & _).
Qed.

End DoneCallbackExtras.

(** * Further properties of the cancel list *)

Lemma Node_eta (nd : Node) :
  {| next := next nd; prev := prev nd; callback := callback nd |} = nd.
Proof. by destruct nd. Qed.

(** The last node of a segment points to the target of the segment. *)
Lemma chain_last_next (h : gmap nat Node) (l : list nat) :
  ∀ (pp p q t : nat),
    chain h pp p l q → last l = Some t →
    ∃ nt, h !! t = Some nt ∧ next nt = q.
Proof.
  induction l as [|n l IH]; intros pp p q t Hch Hlast; [done|].
  simpl in Hch. destruct Hch as (-> & nd & Hn & _ & _ & Hrest).
  destruct l as [|m l'].
  - simpl in Hlast, Hrest. injection Hlast as <-. by exists nd.
  - rewrite last_cons_cons in Hlast. by eapply IH.
Qed.

(** The node before the head: the head itself in an empty list, the last
    node otherwise; in both cases its [next] is the head. *)
Lemma cancel_list_tail (h : gmap nat Node) (sentinel : nat) (l : list nat) :
  cancel_list h sentinel l →
  ∃ hd nt, h !! sentinel = Some hd ∧ h !! prev hd = Some nt
           ∧ next nt = sentinel
           ∧ (prev hd = sentinel ∨ prev hd ∈ l).
Proof.
  intros (Hnd & hd & Hhd & Hch & Hprev).
  destruct (last l) as [t|] eqn:Hlast; simpl in Hprev.
  - destruct (chain_last_next h l sentinel (next hd) sentinel t Hch Hlast)
      as (nt & Hnt & Hnext).
    exists hd, nt. rewrite Hprev. repeat split; try done.
    right. by apply last_Some_elem_of.
  - apply last_None in Hlast. subst l. simpl in Hch.
    exists hd, hd. rewrite Hprev. repeat split; try done. by left.
Qed.

(** Registering a token and destroying it again gives back the storage. *)
Lemma CancelCallback_new_destroy (h : gmap nat Node) (sentinel node : nat)
    (a : CancelAction) (l : list nat) :
  cancel_list h sentinel l → node ∉ sentinel :: l → h !! node = None →
  ∃ h1, CancelCallback_new sentinel node a h = Some h1
        ∧ CancelCallback_destroy node h1 = Some h.
Proof.
  intros Hl Hnode Hfresh.
  destruct (cancel_list_tail h sentinel l Hl) as (hd & nt & Hhd & Hnt & Hnext & Ht).
  apply not_elem_of_cons in Hnode as [Hns Hnl].
  assert (Htn : prev hd ≠ node).
  { destruct Ht as [Heq|Hin]; [by rewrite Heq|].
    intros Heq. by rewrite Heq in Hin. }
  unfold CancelCallback_new. rewrite Hhd. simpl.
  rewrite lookup_insert_ne by done. rewrite Hnt. simpl.
  destruct (decide (prev hd = sentinel)) as [Hts|Hts].
  - (* empty list *)
    rewrite Hts in *. assert (nt = hd) as -> by congruence.
    rewrite lookup_insert_eq. simpl.
    eexists. split; [reflexivity|].
    unfold CancelCallback_destroy, Remove.
    rewrite lookup_insert_ne by done.
    rewrite lookup_insert_ne by done.
    rewrite lookup_insert_eq. simpl.
    rewrite lookup_insert_eq. simpl.
    rewrite lookup_insert_eq. simpl.
    f_equal. apply map_eq. intros x.
    destruct (decide (x = node)) as [->|Hxn].
    { by rewrite lookup_delete_eq. }
    rewrite lookup_delete_ne by done.
    destruct (decide (x = sentinel)) as [->|Hxs].
    { rewrite lookup_insert_eq, Hhd. f_equal.
      destruct hd; simpl in *; congruence. }
    rewrite !lookup_insert_ne by done. done.
  - (* the list has a last node *)
    rewrite lookup_insert_ne by done.
    rewrite lookup_insert_ne by done. rewrite Hhd. simpl.
    eexists. split; [reflexivity|].
    unfold CancelCallback_destroy, Remove.
    rewrite lookup_insert_ne by done.
    rewrite lookup_insert_ne by done.
    rewrite lookup_insert_eq. simpl.
    rewrite lookup_insert_eq. simpl.
    rewrite lookup_insert_ne by done.
    rewrite lookup_insert_ne by done.
    rewrite lookup_insert_eq. simpl.
    f_equal. apply map_eq. intros x.
    destruct (decide (x = node)) as [->|Hxn].
    { by rewrite lookup_delete_eq. }
    rewrite lookup_delete_ne by done.
    destruct (decide (x = prev hd)) as [->|Hxt].
    { rewrite lookup_insert_eq, Hnt. f_equal.
      destruct nt; simpl in *; congruence. }
    rewrite lookup_insert_ne by done.
    destruct (decide (x = sentinel)) as [->|Hxs].
    { rewrite lookup_insert_eq, Hhd. f_equal. apply Node_eta. }
    rewrite !lookup_insert_ne by done. done.
Qed.

(** X11.  Whichever way [InterruptibleWaitImpl] is left (normal return,
    timeout, cancellation or a signal's error), the cancel-callback token it
    linked into the future's list on entry is unlinked again: when no other
    thread touched the list, its storage is exactly what it was before the
    call. *)
Theorem InterruptibleWaitImpl_releases_token (sentinel node : nat) (pf : bool)
    (obs : list WaitIteration) (h : gmap nat Node) (l : list nat)
    (o : Outcome unit) :
  cancel_list h sentinel l → node ∉ sentinel :: l → h !! node = None →
  InterruptibleWaitImpl pf obs = Some o →
  InterruptibleWaitImpl_scoped sentinel node pf obs (λ h1, h1) h = Some (o, h).
Proof.
  intros Hl Hnode Hfresh Ho. unfold InterruptibleWaitImpl_scoped.
  destruct pf.
  - destruct (CancelCallback_new_destroy h sentinel node Notify l Hl Hnode Hfresh)
      as (h1 & -> & Hd).
    simpl. rewrite Ho. simpl. rewrite Hd. done.
  - simpl. rewrite Ho. done.
Qed.

Lemma RunCancelCallbacks_loop_keeps (sentinel : nat) (l : list nat) :
  ∀ (fuel : nat) (h : gmap nat Node) (pp p : nat) (lg : list Event),
    length l ≤ fuel → sentinel ∉ l → chain h pp p l sentinel →
    (∀ x, x ∈ l → keeps_token h x = true) →
    RunCancelCallbacks_loop fuel sentinel p (h, lg)
    = Some (h, lg ++ (CancelInvoked <$> l)).
Proof.
  induction l as [|n l IH]; intros fuel h pp p lg Hfuel Hs Hch Hkeep.
  - simpl in Hch. subst p.
    by rewrite RunCancelCallbacks_loop_head, app_nil_r.
  - simpl in Hch. destruct Hch as (-> & nd & Hn & Hprev & [a Ha] & Hrest).
    apply not_elem_of_cons in Hs as [Hsn Hs].
    destruct fuel as [|fuel]; [simpl in Hfuel; lia|].
    simpl in Hfuel.
    rewrite fmap_cons, (cons_middle _ lg), (assoc_L (++)).
    simpl. rewrite bool_decide_eq_false_2 by done.
    rewrite Hn. simpl. rewrite Ha. simpl.
    assert (a = Notify) as ->.
    { specialize (Hkeep n ltac:(by left)). unfold keeps_token in Hkeep.
      rewrite Hn, Ha in Hkeep. by destruct a. }
    simpl. apply (IH fuel h n); [lia | done | done |].
    intros x Hx. apply Hkeep. by right.
Qed.

Section CancelListExtras.
Context {World : Type}.

(** X12.  [RunCancelCallbacks] itself unlinks nothing.  When no callback
    destroys its token the storage of the list is unchanged by the
    traversal, the tokens stay registered, and a second traversal calls
    every one of them again. *)
Theorem RunCancelCallbacks_keeps_tokens (f : PythonFuture World) (l : list nat) :
  cancel_list (heap f) (cancel_callbacks_ f) l →
  (∀ x, x ∈ l → keeps_token (heap f) x = true) →
  ∃ f', RunCancelCallbacks f = Some f'
        ∧ heap f' = heap f
        ∧ log f' = log f ++ (CancelInvoked <$> l)
        ∧ ∃ f'', RunCancelCallbacks f' = Some f''
                 ∧ log f'' = log f ++ (CancelInvoked <$> l)
                                   ++ (CancelInvoked <$> l).
Proof.
  intros Hl Hkeep.
  pose proof Hl as (Hnd & hd & Hhd & Hch & _).
  apply NoDup_cons in Hnd as [Hs Hnd].
  pose proof (chain_length_le_size _ _ _ _ _ Hnd Hch) as Hsize.
  assert (Hrun : ∀ lg, RunCancelCallbacks_loop (size (heap f))
                         (cancel_callbacks_ f) (next hd) (heap f, lg)
                       = Some (heap f, lg ++ (CancelInvoked <$> l))).
  { intros lg. by eapply RunCancelCallbacks_loop_keeps. }
  unfold RunCancelCallbacks at 1. rewrite Hhd. simpl. rewrite Hrun. simpl.
  eexists. split; [reflexivity|]. simpl. split; [done|]. split; [done|].
  unfold RunCancelCallbacks. simpl. rewrite Hhd. simpl. rewrite Hrun. simpl.
  eexists. split; [reflexivity|]. simpl. by rewrite <- (assoc_L (++)).
Qed.

End CancelListExtras.

Lemma InterruptibleWaitImpl_releases_token_witness :
  InterruptibleWaitImpl_scoped 0 9 true
    [ {| wait_result := kTimeout; future_cancelled := false;
         pending_signal := None |} ] (λ h1, h1) example_heap
  = Some (Raised (PyType TimeoutErrorCls), example_heap).
Proof.
  apply (InterruptibleWaitImpl_releases_token 0 9 true _ example_heap [1; 2; 3]).
  - exact example_cancel_list.
  - compute_done.
  - vm_compute. reflexivity.
  - reflexivity.
Defined.

(** ** Unlinking a token anywhere in the list *)

Lemma last_cons_default (pp n : nat) (l : list nat) :
  default pp (last (n :: l)) = default n (last l).
Proof. rewrite last_cons. by destruct (last l). Qed.

(** A segment splits at any point. *)
Lemma chain_app (h : gmap nat Node) (l1 l2 : list nat) :
  ∀ (pp p q : nat),
    chain h pp p (l1 ++ l2) q
    ↔ ∃ m, chain h pp p l1 m ∧ chain h (default pp (last l1)) m l2 q.
Proof.
  induction l1 as [|n l1 IH]; intros pp p q.
  - simpl. split.
    + intros Hch. by exists p.
    + by intros (m & -> & Hch).
  - change ((n :: l1) ++ l2) with (n :: (l1 ++ l2)). cbn [chain].
    rewrite last_cons_default. split.
    + intros (-> & nd & Hn & Hprev & Hcb & Hrest).
      apply IH in Hrest as (m & H1 & H2).
      exists m. split; [|done]. split; [done|]. by exists nd.
    + intros (m & (-> & nd & Hn & Hprev & Hcb & H1) & H2).
      split; [done|]. exists nd. repeat split; try done.
      apply IH. by exists m.
Qed.

(** The last node of a segment is given a new target. *)
Lemma chain_retarget (h h' : gmap nat Node) (l : list nat) :
  ∀ (pp p q q' t : nat) (nt : Node),
    NoDup l → chain h pp p l q → last l = Some t → h !! t = Some nt →
    (∀ x, x ∈ l → x ≠ t → h' !! x = h !! x) →
    h' !! t = Some {| next := q'; prev := prev nt; callback := callback nt |} →
    chain h' pp p l q'.
Proof.
  induction l as [|n l IH]; intros pp p q q' t nt Hnd Hch Hlast Ht Hsame Ht';
    [done|].
  simpl in Hch. destruct Hch as (-> & nd & Hn & Hprev & Hcb & Hrest).
  apply NoDup_cons in Hnd as [Hnl Hnd].
  destruct l as [|m l'].
  - simpl in Hlast. injection Hlast as <-.
    assert (nt = nd) as -> by congruence.
    simpl. split; [done|]. eexists. split; [exact Ht'|]. done.
  - rewrite last_cons_cons in Hlast.
    assert (Htin : t ∈ m :: l') by (by apply last_Some_elem_of).
    assert (n ≠ t) by (intros ->; done).
    cbn [chain]. split; [done|]. exists nd.
    rewrite Hsame by (done || left).
    split; [done|]. split; [done|]. split; [done|].
    apply (IH n (next nd) q q' t nt); try done.
    intros x Hx Hxt. apply Hsame; [by right | done].
Qed.

(** The record of a registered token: it points to its neighbours in the
    list, the head standing at both ends. *)
Lemma cancel_list_lookup (h : gmap nat Node) (s : nat) (l1 l2 : list nat) (n : nat) :
  cancel_list h s (l1 ++ n :: l2) →
  ∃ nd, h !! n = Some nd
        ∧ next nd = default s (head l2)
        ∧ prev nd = default s (last l1)
        ∧ is_Some (callback nd).
Proof.
  intros (_ & hd & _ & Hch & _).
  apply chain_app in Hch as (m & _ & Hch).
  simpl in Hch. destruct Hch as (-> & nd & Hn & Hprev & Hcb & Hrest).
  exists nd. repeat split; try done.
  destruct l2 as [|x l2']; simpl in Hrest |- *; [done|].
  by destruct Hrest as (-> & _).
Qed.

(** What destroying a token leaves in the cells of its two neighbours. *)
Lemma CancelCallback_destroy_lookup (h : gmap nat Node) (n : nat)
    (nd nx pv : Node) :
  h !! n = Some nd → h !! next nd = Some nx → h !! prev nd = Some pv →
  next nd ≠ n → prev nd ≠ n →
  ∃ h', CancelCallback_destroy n h = Some h'
        ∧ h' !! n = None
        ∧ (∀ x, x ≠ n → x ≠ next nd → x ≠ prev nd → h' !! x = h !! x)
        ∧ (next nd ≠ prev nd →
             h' !! next nd = Some {| next := next nx; prev := prev nd;
                                     callback := callback nx |}
             ∧ h' !! prev nd = Some {| next := next nd; prev := prev pv;
                                       callback := callback pv |})
        ∧ (next nd = prev nd →
             h' !! prev nd = Some {| next := next nd; prev := prev nd;
                                     callback := callback pv |}).
Proof.
  intros Hn Hnx Hpv Hnn Hpn.
  unfold CancelCallback_destroy, Remove. rewrite Hn. simpl. rewrite Hnx. simpl.
  destruct (decide (next nd = prev nd)) as [Heq|Hne].
  - rewrite <- Heq. rewrite lookup_insert_eq. simpl.
    eexists. split; [reflexivity|].
    split; [apply lookup_delete_eq|]. split.
    { intros x H1 H2 H3. rewrite lookup_delete_ne by done.
      rewrite !lookup_insert_ne by done. done. }
    split; [done|]. intros _.
    rewrite lookup_delete_ne by done. rewrite lookup_insert_eq.
    assert (nx = pv) as -> by (rewrite Heq in Hnx; congruence). done.
  - rewrite lookup_insert_ne by done. rewrite Hpv. simpl.
    eexists. split; [reflexivity|].
    split; [apply lookup_delete_eq|]. split.
    { intros x H1 H2 H3. rewrite lookup_delete_ne by done.
      rewrite !lookup_insert_ne by done. done. }
    split; [|done]. intros _. split.
    + rewrite lookup_delete_ne by done.
      rewrite lookup_insert_ne by done. apply lookup_insert_eq.
    + rewrite lookup_delete_ne by done. apply lookup_insert_eq.
Qed.

Lemma NoDup_ring_split (s n : nat) (l1 l2 : list nat) :
  NoDup (s :: l1 ++ n :: l2) →
  (s ∉ l1) ∧ s ≠ n ∧ (s ∉ l2) ∧ (n ∉ l1) ∧ (n ∉ l2)
  ∧ (∀ y, y ∈ l1 → y ∉ l2) ∧ NoDup l1 ∧ NoDup l2
  ∧ NoDup (s :: l1 ++ l2).
Proof.
  intros Hnd. apply NoDup_cons in Hnd as [Hs Hnd].
  apply NoDup_app in Hnd as (Hnd1 & Hdisj & Hnd2).
  apply NoDup_cons in Hnd2 as [Hn2 Hnd2].
  rewrite elem_of_app, elem_of_cons in Hs.
  assert (Hn1 : n ∉ l1).
  { intros Hin. apply (Hdisj n Hin). by left. }
  assert (Hd : ∀ y, y ∈ l1 → y ∉ l2).
  { intros y Hy Hy2. apply (Hdisj y Hy). by right. }
  split; [intros Hin; apply Hs; by left|].
  split; [intros Heq; apply Hs; right; by left|].
  split; [intros Hin; apply Hs; right; by right|].
  split; [exact Hn1|]. split; [exact Hn2|]. split; [exact Hd|].
  split; [exact Hnd1|]. split; [exact Hnd2|].
  apply NoDup_cons. split.
  - rewrite elem_of_app. intros [Hin|Hin]; apply Hs; [by left | right; by right].
  - apply NoDup_app. done.
Qed.

(** Destroying any registered token leaves a well-formed list without it,
    and the callbacks of the others as they were. *)
Lemma CancelCallback_destroy_cancel_list (h : gmap nat Node) (s : nat)
    (l1 l2 : list nat) (n : nat) :
  cancel_list h s (l1 ++ n :: l2) →
  ∃ h', CancelCallback_destroy n h = Some h'
        ∧ cancel_list h' s (l1 ++ l2)
        ∧ h' !! n = None
        ∧ (∀ x ndx, x ≠ n → h !! x = Some ndx →
             ∃ ndx', h' !! x = Some ndx' ∧ callback ndx' = callback ndx).
Proof.
  intros (Hnd & hd & Hhd & Hch & Hprev).
  destruct (NoDup_ring_split s n l1 l2 Hnd)
    as (Hs1 & Hsn & Hs2 & Hn1 & Hn2 & Hdisj & Hnd1 & Hnd2 & Hnd').
  apply chain_app in Hch as (m & Hc1 & Hc2).
  simpl in Hc2. destruct Hc2 as (-> & nd & Hn & Hndprev & Hcb & Hc3).
  (* the cell of the predecessor *)
  assert (Hpv : ∃ pv, h !! prev nd = Some pv ∧ prev nd ≠ n
                      ∧ (prev nd = s ∨ prev nd ∈ l1)).
  { rewrite Hndprev. destruct (last l1) as [t|] eqn:Hlast; simpl.
    - assert (Ht : t ∈ l1) by (by apply last_Some_elem_of).
      destruct (chain_lookup h l1 s (next hd) n t Hc1 Ht) as [nt Hnt].
      exists nt. split; [done|]. split; [by intros ->|by right].
    - exists hd. split; [done|]. split; [done|by left]. }
  destruct Hpv as (pv & Hpv & Hpvn & Hpvin).
  (* the cell of the successor *)
  assert (Hnx : ∃ nx, h !! next nd = Some nx ∧ next nd ≠ n
                      ∧ (next nd = s ∨ next nd ∈ l2)).
  { destruct l2 as [|x l2']; simpl in Hc3.
    - rewrite Hc3. exists hd. split; [done|]. split; [done|by left].
    - destruct Hc3 as (-> & md & Hmd & _).
      exists md. split; [done|].
      apply not_elem_of_cons in Hn2 as [Hnx _].
      split; [done|]. right. by left. }
  destruct Hnx as (nx & Hnx & Hnxn & Hnxin).
  destruct (CancelCallback_destroy_lookup h n nd nx pv Hn Hnx Hpv Hnxn Hpvn)
    as (h' & Hd & Hgone & Hother & Hdiff & Hsame).
  exists h'. split; [exact Hd|].
  split; [|split; [exact Hgone|]].
  2:{ (* callbacks *)
    intros x ndx Hxn Hx.
    destruct (decide (next nd = prev nd)) as [Heq|Hne].
    - destruct (decide (x = prev nd)) as [->|Hxp].
      + rewrite (Hsame Heq). eexists. split; [done|]. simpl. congruence.
      + exists ndx. split; [|done]. rewrite Hother; [done|done| |done].
        by rewrite Heq.
    - destruct (Hdiff Hne) as (Hnx' & Hpv').
      destruct (decide (x = prev nd)) as [->|Hxp].
      { rewrite Hpv'. eexists. split; [done|]. simpl. congruence. }
      destruct (decide (x = next nd)) as [->|Hxx].
      { rewrite Hnx'. eexists. split; [done|]. simpl. congruence. }
      exists ndx. split; [|done]. by rewrite Hother. }
  (* the list *)
  split; [exact Hnd'|].
  destruct l2 as [|x l2']; simpl in Hc3.
  - (* the token was the last of the list *)
    rewrite app_nil_r.
    destruct (last l1) as [t|] eqn:Hlast; simpl in Hndprev.
    + (* and had a predecessor *)
      assert (Ht : t ∈ l1) by (by apply last_Some_elem_of).
      assert (Hne : next nd ≠ prev nd).
      { rewrite Hc3, Hndprev. by intros <-. }
      destruct (Hdiff Hne) as (Hnx' & Hpv').
      rewrite Hc3 in Hnx'. assert (nx = hd) as -> by congruence.
      eexists. split; [exact Hnx'|]. simpl. split; [|by rewrite Hndprev].
      rewrite Hndprev in Hpv, Hpv'.
      apply (chain_retarget h h' l1 s (next hd) n s t pv); try done.
      * intros y Hy Hyt. apply Hother.
        -- by intros ->.
        -- rewrite Hc3. by intros ->.
        -- by rewrite Hndprev.
      * by rewrite <- Hc3.
    + (* and the only one *)
      apply last_None in Hlast. subst l1. simpl in Hc1.
      assert (Heq : next nd = prev nd) by congruence.
      pose proof (Hsame Heq) as Hhd'. rewrite Hndprev in Hhd' at 1.
      eexists. split; [exact Hhd'|].
      simpl. by rewrite Hc3, Hndprev.
  - (* the token had a successor *)
    destruct Hc3 as (Hxeq & md & Hmd & Hmdprev & Hmdcb & Hc4).
    apply not_elem_of_cons in Hn2 as [Hnx2 Hn2].
    apply not_elem_of_cons in Hs2 as [Hsx Hs2].
    apply NoDup_cons in Hnd2 as [Hx2 Hnd2].
    assert (nx = md) as -> by (rewrite Hxeq in Hnx; congruence).
    assert (Hrest : chain h' x (next md) l2' s).
    { apply (chain_frame h); [|done].
      intros y Hy. apply Hother.
      - by intros ->.
      - rewrite Hxeq. by intros ->.
      - destruct Hpvin as [Hp|Hp]; rewrite ?Hp; [by intros ->|].
        intros ->. apply (Hdisj _ Hp). by right. }
    assert (Hne : next nd ≠ prev nd).
    { rewrite Hxeq. destruct Hpvin as [Hp|Hp]; rewrite ?Hp; [done|].
      intros Heq. apply (Hdisj _ Hp). rewrite <- Heq. by left. }
    destruct (Hdiff Hne) as (Hnx' & Hpv').
    rewrite Hxeq in Hnx'.
    assert (Hseg : chain h' (prev nd) x (x :: l2') s).
    { simpl. split; [done|]. eexists. split; [exact Hnx'|]. done. }
    destruct (last l1) as [t|] eqn:Hlast; simpl in Hndprev.
    + (* between two tokens *)
      assert (Ht : t ∈ l1) by (by apply last_Some_elem_of).
      assert (Hhd' : h' !! s = Some hd).
      { rewrite Hother; [done|done| |].
        - rewrite Hxeq. done.
        - rewrite Hndprev. by intros ->. }
      exists hd. split; [exact Hhd'|]. split.
      * apply chain_app. exists x. rewrite Hlast. simpl.
        rewrite Hndprev in Hseg, Hpv, Hpv'. split; [|exact Hseg].
        apply (chain_retarget h h' l1 s (next hd) n x t pv); try done.
        -- intros y Hy Hyt. apply Hother.
           ++ by intros ->.
           ++ rewrite Hxeq. intros ->. apply (Hdisj _ Hy). by left.
           ++ by rewrite Hndprev.
        -- by rewrite <- Hxeq.
      * rewrite Hprev, !last_app. done.
    + (* first of the list *)
      apply last_None in Hlast. subst l1. simpl in Hc1 |- *.
      rewrite Hndprev in Hpv, Hpv', Hseg.
      assert (pv = hd) as -> by congruence.
      eexists. split; [exact Hpv'|]. simpl. split; [by rewrite Hxeq|].
      rewrite Hprev. done.
Qed.

Lemma filter_keeps_ext (h h' : gmap nat Node) (l : list nat) :
  (∀ x, x ∈ l → keeps_token h' x = keeps_token h x) →
  filter (λ x, keeps_token h' x = true) l = filter (λ x, keeps_token h x = true) l.
Proof.
  induction l as [|x l IH]; intros Hext; [done|].
  rewrite !(filter_cons _ x).
  rewrite (Hext x) by left.
  rewrite IH by (intros y Hy; apply Hext; by right).
  by destruct (decide (keeps_token h x = true)).
Qed.

(** The traversal with the whole list in view: [kept] are the tokens
    already passed that are still linked, [r] the ones still to call. *)
Lemma RunCancelCallbacks_loop_list (s : nat) (r : list nat) :
  ∀ (kept : list nat) (fuel : nat) (h : gmap nat Node) (lg : list Event),
    length r ≤ fuel → cancel_list h s (kept ++ r) →
    ∃ h', RunCancelCallbacks_loop fuel s (default s (head r)) (h, lg)
          = Some (h', lg ++ (CancelInvoked <$> r))
          ∧ cancel_list h' s (kept ++ filter (λ x, keeps_token h x = true) r).
Proof.
  induction r as [|n r IH]; intros kept fuel h lg Hfuel Hl.
  - simpl. exists h. rewrite RunCancelCallbacks_loop_head, app_nil_r.
    split; [done|]. by rewrite filter_nil.
  - pose proof Hl as (Hnd & _).
    destruct (NoDup_ring_split s n kept r Hnd)
      as (_ & Hsn & _ & _ & Hnr & _ & _ & _ & _).
    destruct (cancel_list_lookup h s kept r n Hl) as (nd & Hn & Hnext & _ & [a Ha]).
    destruct fuel as [|fuel]; [simpl in Hfuel; lia|].
    simpl in Hfuel.
    rewrite fmap_cons, (cons_middle _ lg), (assoc_L (++)).
    simpl. rewrite bool_decide_eq_false_2 by done.
    rewrite Hn. simpl. rewrite Ha. simpl. rewrite Hnext.
    destruct a; simpl.
    + (* the token stays *)
      rewrite (filter_cons_True _ n)
        by (unfold keeps_token; by rewrite Hn, Ha).
      destruct (IH (kept ++ [n]) fuel h (lg ++ [CancelInvoked n]) ltac:(lia))
        as (h' & Hrun & Hl').
      { by rewrite <- (assoc_L (++)). }
      exists h'. split; [exact Hrun|].
      by rewrite <- (assoc_L (++)) in Hl'.
    + (* the token is destroyed during its call *)
      rewrite (filter_cons_False _ n)
        by (unfold keeps_token; by rewrite Hn, Ha).
      destruct (CancelCallback_destroy_cancel_list h s kept r n Hl)
        as (h1 & -> & Hl1 & _ & Hcbs).
      simpl.
      destruct (IH kept fuel h1 (lg ++ [CancelInvoked n]) ltac:(lia) Hl1)
        as (h' & Hrun & Hl').
      exists h'. split; [exact Hrun|].
      rewrite (filter_keeps_ext h h1) in Hl'; [done|].
      intros x Hx. unfold keeps_token.
      assert (Hxn : x ≠ n) by (by intros ->).
      destruct (h !! x) as [ndx|] eqn:Hhx.
      * destruct (Hcbs x ndx Hxn Hhx) as (ndx' & -> & ->). done.
      * destruct Hl1 as (_ & hd1 & _ & Hch1 & _).
        apply chain_app in Hch1 as (m & _ & Hch1).
        destruct (chain_lookup _ _ _ _ _ x Hch1 Hx) as [ndx' Hx'].
        destruct Hl as (_ & hd & _ & Hch & _).
        apply chain_app in Hch as (m' & _ & Hch).
        assert (Hin : x ∈ n :: r) by (by right).
        destruct (chain_lookup _ _ _ _ _ x Hch Hin) as [ndx'' Hx''].
        congruence.
Qed.

Section CancelListInvariant.
Context {World : Type}.

(** X13.  After [RunCancelCallbacks] the list is still a well-formed
    circular list: it holds, in their order, exactly the tokens whose
    callback did not destroy them, and every token was called once. *)
Theorem RunCancelCallbacks_leaves_list (f : PythonFuture World) (l : list nat) :
  cancel_list (heap f) (cancel_callbacks_ f) l →
  ∃ f', RunCancelCallbacks f = Some f'
        ∧ log f' = log f ++ (CancelInvoked <$> l)
        ∧ cancel_list (heap f') (cancel_callbacks_ f')
            (filter (λ x, keeps_token (heap f) x = true) l).
Proof.
  intros Hl.
  pose proof Hl as (Hnd & hd & Hhd & Hch & _).
  apply NoDup_cons in Hnd as [_ Hnd].
  pose proof (chain_length_le_size _ _ _ _ _ Hnd Hch) as Hsize.
  destruct (RunCancelCallbacks_loop_list (cancel_callbacks_ f) l []
              (size (heap f)) (heap f) (log f) Hsize Hl)
    as (h' & Hrun & Hl').
  assert (Hfirst : next hd = default (cancel_callbacks_ f) (head l)).
  { destruct l as [|x l']; simpl in Hch |- *; [done|]. by destruct Hch. }
  unfold RunCancelCallbacks. rewrite Hhd. simpl. rewrite Hfirst, Hrun. simpl.
  eexists. split; [reflexivity|]. simpl. done.
Qed.

End CancelListInvariant.

(** X14.  A wait releases its token whatever the other threads did to the
    list while it waited: if the list is then well formed and still holds
    the token somewhere, the exit leaves a well-formed list with the other
    tokens in their order, and the token's cell is gone. *)
Theorem InterruptibleWaitImpl_releases_among_others (s node : nat)
    (obs : list WaitIteration) (others : gmap nat Node → gmap nat Node)
    (h h1 : gmap nat Node) (l1 l2 : list nat) (o : Outcome unit) :
  CancelCallback_new s node Notify h = Some h1 →
  cancel_list (others h1) s (l1 ++ node :: l2) →
  InterruptibleWaitImpl true obs = Some o →
  ∃ h2, InterruptibleWaitImpl_scoped s node true obs others h = Some (o, h2)
        ∧ cancel_list h2 s (l1 ++ l2)
        ∧ h2 !! node = None.
Proof.
  intros Hnew Hl Ho. unfold InterruptibleWaitImpl_scoped.
  rewrite Hnew. simpl. rewrite Ho. simpl.
  destruct (CancelCallback_destroy_cancel_list (others h1) s l1 l2 node Hl)
    as (h2 & -> & Hl2 & Hgone & _).
  simpl. by exists h2.
Qed.

Lemma example_waiters_list : cancel_list example_waiters 0 [1; 2].
Proof.
  split; [compute_done|].
  exists {| next := 1; prev := 2; callback := None |}.
  split; [vm_compute; reflexivity|]. split; [|reflexivity].
  simpl. split; [reflexivity|]. eexists.
  split; [vm_compute; reflexivity|]. split; [reflexivity|].
  split; [by eexists|].
  simpl. split; [reflexivity|]. eexists.
  split; [vm_compute; reflexivity|]. split; [reflexivity|].
  split; [by eexists|].
  reflexivity.
Qed.

Lemma RunCancelCallbacks_keeps_tokens_witness :
  ∃ f', RunCancelCallbacks example_waited = Some f'
        ∧ heap f' = heap example_waited
        ∧ log f' = [CancelInvoked 1; CancelInvoked 2].
Proof.
  destruct (RunCancelCallbacks_keeps_tokens example_waited [1; 2]
              example_waiters_list) as (f' & Hrun & Hheap & Hlog & _).
  { intros x Hx.
    apply elem_of_cons in Hx as [->|Hx]; [vm_compute; reflexivity|].
    apply list_elem_of_singleton in Hx as ->. vm_compute. reflexivity. }
  exists f'. split; [exact Hrun|]. split; [exact Hheap|]. exact Hlog.
Defined.

Lemma RunCancelCallbacks_leaves_list_witness :
  ∃ f', RunCancelCallbacks example_future = Some f'
        ∧ cancel_list (heap f') (cancel_callbacks_ f') [1].
Proof.
  destruct (RunCancelCallbacks_leaves_list example_future [1; 2; 3]
              example_cancel_list) as (f' & Hrun & _ & Hl).
  exists f'. split; [exact Hrun|]. exact Hl.
Defined.

Lemma InterruptibleWaitImpl_releases_among_others_witness :
  ∃ h2, InterruptibleWaitImpl_scoped 0 9 true
          [ {| wait_result := kSuccess; future_cancelled := false;
               pending_signal := None |} ] (λ h1, h1) example_heap
        = Some (Returned tt, h2)
        ∧ cancel_list h2 0 ([1; 2; 3] ++ [])
        ∧ h2 !! 9 = None.
Proof.
  assert (H9 : 9 ∉ 0 :: [1; 2; 3]) by compute_done.
  destruct (CancelCallback_new_cancel_list example_heap 0 9 Notify [1; 2; 3]
              example_cancel_list H9) as (h1 & Hnew & Hl1).
  exact (InterruptibleWaitImpl_releases_among_others 0 9
           [ {| wait_result := kSuccess; future_cancelled := false;
                pending_signal := None |} ] (λ h1, h1) example_heap h1
           [1; 2; 3] [] (Returned tt) Hnew Hl1 eq_refl).
Defined.

(** * Further properties of the deadline, the wait and the stored result *)

Section WaitDeadlineExtras.
Variable double : Type.
Variable Duration : Type.
Variable Seconds : double → Duration.
Variable time_plus : absl.Time → Duration → absl.Time.
Variable Now : absl.Time.

Lemma Time_le_refl (a : absl.Time) : absl.le a a = true.
Proof. unfold absl.le. by rewrite lt_irrefl. Qed.

Lemma le_InfiniteFuture (a : absl.Time) : absl.le a absl.InfiniteFuture = true.
Proof. by destruct a. Qed.

(** X15.  Giving one more argument never makes the wait longer: the
    deadline computed from a timeout and a deadline is no later than the
    one computed with either argument left out. *)
Theorem GetWaitDeadline_monotone (timeout deadline : option double) :
  let G := GetWaitDeadline double Duration Seconds time_plus Now in
  absl.le (G timeout deadline) (G None deadline) = true
  ∧ absl.le (G timeout deadline) (G timeout None) = true
  ∧ absl.le (G timeout deadline) (G None None) = true.
Proof.
  unfold GetWaitDeadline.
  destruct timeout as [t|], deadline as [d|]; simpl;
    rewrite ?std_min_InfiniteFuture, ?Time_le_refl, ?le_InfiniteFuture;
    try done.
  destruct (std_min_lower (time_plus absl.UnixEpoch (Seconds d))
              (time_plus Now (Seconds t))) as (_ & -> & ->).
  done.
Qed.

End WaitDeadlineExtras.

(** X17.  What a producer stores comes back through the cast: the payload
    of [set_result] casts to a normal return of the stored object; the
    payload of [set_exception] never casts to a value, and for an instance
    of an exception class the error raised is that instance. *)
Theorem cast_round_trip :
  (∀ r, cast (set_result_payload r) = Returned r)
  ∧ (∀ e, ∃ e', cast (set_exception_payload e) = Raised e' ∧ is_none e' = false)
  ∧ (∀ cls arg, PyExceptionClass_Check (PyType cls) = true →
       cast (set_exception_payload (PyExcInstance cls arg))
       = Raised (PyExcInstance cls arg))
  ∧ (∀ (World : Type) py_outcome py_effect (f : PythonFuture World) r e,
       set_result py_outcome py_effect r f
       = SetResult py_outcome py_effect (set_result_payload r) f
       ∧ set_exception py_outcome py_effect e f
         = SetResult py_outcome py_effect (set_exception_payload e) f).
Proof.
  split; [done|]. split; [|split; [|done]].
  - intros e. eexists. split; [reflexivity|]. simpl.
    apply PyErr_SetObject_not_none.
  - intros cls arg Hcls. unfold cast, set_exception_payload, PyErr_SetObject.
    simpl in *. by rewrite Hcls.
Qed.

Lemma cast_round_trip_witness :
  cast (set_exception_payload (PyExcInstance (UserExcCls 3) PyNone))
  = Raised (PyExcInstance (UserExcCls 3) PyNone).
Proof.
  exact (proj1 (proj2 (proj2 cast_round_trip)) (UserExcCls 3) PyNone eq_refl).
Defined.

(** * Further properties of the asyncio bridge *)

Section BridgeExtras.
Variable bridge_cb : nat.
Variable user_outcome : nat → CallEnd.

Local Abbreviation outcome := (bridge_outcome bridge_cb user_outcome).
Local Abbreviation effect := (bridge_effect bridge_cb).

Lemma cancel_pending_world (f : PythonFuture Loop) (l : list nat) :
  slot f = Unset → cancel_list (heap f) (cancel_callbacks_ f) l →
  ∃ f', cancel outcome effect f = Some f'
        ∧ slot f' = Cancelled
        ∧ cancel_invocations (log f') = cancel_invocations (log f) ++ l
        ∧ world f' = foldl (λ w cb, effect cb w) (world f) (callbacks_ f).
Proof.
  intros Hu Hl. unfold cancel, done. rewrite Hu.
  destruct (RunCancelCallbacks_frame (with_slot Cancelled f) l Hl)
    as (f1 & -> & Hlog & Hslot & Hcbs & _ & _ & Hw & _).
  simpl.
  destruct (RunCallbacks_frame outcome effect f1) as (Hl2 & Hs2 & _).
  eexists. split; [reflexivity|].
  split; [by rewrite Hs2, Hslot|]. split.
  - rewrite Hl2, Hlog, !cancel_invocations_app,
      cancel_invocations_cancel_events, cancel_invocations_dispatch, app_nil_r.
    done.
  - unfold RunCallbacks. rewrite dispatch_loop_world. simpl.
    by rewrite Hw, Hcbs.
Qed.

(** X18.  Awaiting a future that is already terminal: [get_await_result]
    stores no callback on it; the completing closure is handed to the loop
    during the call, and one turn of the loop completes the awaitable with
    the value of the source, or cancels it when the source is cancelled. *)
Theorem get_await_result_terminal (f : PythonFuture Loop) :
  slot f ≠ Unset → ready (world f) = [] →
  ∃ f1, get_await_result bridge_cb user_outcome f = Returned f1
        ∧ callbacks_ f1 = callbacks_ f
        ∧ slot f1 = slot f
        ∧ awaitable_future (world f1) = APending
        ∧ ready (world f1) = [CompleteAwaitable]
        ∧ (∀ v r, slot f = Completed v → value v = Some r →
             ∃ f2, run_ready bridge_cb user_outcome f1 = Some f2
                   ∧ awaitable_future (world f2) = AResult r)
        ∧ (slot f = Cancelled →
             ∃ f2, run_ready bridge_cb user_outcome f1 = Some f2
                   ∧ awaitable_future (world f2) = ACancelled).
Proof.
  intros Hs Hready.
  assert (Hget : get_await_result bridge_cb user_outcome f
    = Returned (with_world
        {| awaitable_future := APending; awaitable_callbacks := [CancelSource];
           ready := [CompleteAwaitable] |}
        (with_call
           {| awaitable_future := APending; awaitable_callbacks := [];
              ready := [CompleteAwaitable] |}
           [DoneInvoked bridge_cb] f))).
  { unfold get_await_result, add_done_callback, done. simpl.
    destruct (slot f); [done| |];
      unfold bridge_outcome, bridge_effect;
      rewrite !bool_decide_eq_true_2 by done;
      unfold call_soon_threadsafe; simpl; by rewrite Hready. }
  eexists. split; [exact Hget|].
  do 4 (split; [done|]). split.
  - intros v r Hv Hr.
    destruct (run_ready_completes bridge_cb user_outcome
                (with_world
                   {| awaitable_future := APending;
                      awaitable_callbacks := [CancelSource];
                      ready := [CompleteAwaitable] |}
                   (with_call
                      {| awaitable_future := APending; awaitable_callbacks := [];
                         ready := [CompleteAwaitable] |}
                      [DoneInvoked bridge_cb] f))
                (AResult r) eq_refl) as (f2 & Hrun & _ & Ha).
    { intros f0 Hp0 Hs0. simpl in Hs0. rewrite Hv in Hs0.
      destruct (complete_awaitable_pending f0 Hp0) as (_ & _ & Hval).
      by apply (Hval v r). }
    by exists f2.
  - intros Hc.
    destruct (run_ready_completes bridge_cb user_outcome
                (with_world
                   {| awaitable_future := APending;
                      awaitable_callbacks := [CancelSource];
                      ready := [CompleteAwaitable] |}
                   (with_call
                      {| awaitable_future := APending; awaitable_callbacks := [];
                         ready := [CompleteAwaitable] |}
                      [DoneInvoked bridge_cb] f))
                ACancelled eq_refl) as (f2 & Hrun & _ & Ha).
    { intros f0 Hp0 Hs0. simpl in Hs0. rewrite Hc in Hs0.
      destruct (complete_awaitable_pending f0 Hp0) as (Hcan & _).
      by apply Hcan. }
    by exists f2.
Qed.

(** X19.  Cancelling the awaitable cancels the source: the reverse callback
    that [get_await_result] registered is run by the loop and calls
    [cancel], which fires the cancel callbacks of the source; the completing
    closure that this dispatch hands to the loop then finds the awaitable
    done and leaves it cancelled. *)
Theorem awaitable_cancel_reaches_source (f : PythonFuture Loop) (l : list nat) :
  slot f = Unset → bridge_cb ∉ callbacks_ f → ready (world f) = [] →
  cancel_list (heap f) (cancel_callbacks_ f) l →
  ∃ f1 f2 f3,
    get_await_result bridge_cb user_outcome f = Returned f1
    ∧ ready (aw_cancel (world f1)) = [CancelSource]
    ∧ run_ready bridge_cb user_outcome (with_world (aw_cancel (world f1)) f1)
      = Some f2
    ∧ slot f2 = Cancelled
    ∧ cancel_invocations (log f2) = cancel_invocations (log f) ++ l
    ∧ ready (world f2) = [CompleteAwaitable]
    ∧ run_ready bridge_cb user_outcome f2 = Some f3
    ∧ slot f3 = Cancelled
    ∧ awaitable_future (world f3) = ACancelled
    ∧ ready (world f3) = [].
Proof.
  intros Hu Hnot Hready Hl.
  set (f1 := with_world
               {| awaitable_future := APending;
                  awaitable_callbacks := [CancelSource];
                  ready := ready (world f) |}
               (with_callbacks (callbacks_ f ++ [bridge_cb]) f)).
  assert (Hget : get_await_result bridge_cb user_outcome f = Returned f1).
  { unfold get_await_result, add_done_callback, done. simpl. by rewrite Hu. }
  set (f0 := with_world
               {| awaitable_future := ACancelled; awaitable_callbacks := [];
                  ready := [] |} f1).
  destruct (cancel_pending_world f0 l Hu Hl) as (f2 & Hc & Hs2 & Hci & Hw2).
  assert (Hw2' : world f2 = {| awaitable_future := ACancelled;
                               awaitable_callbacks := [];
                               ready := [CompleteAwaitable] |}).
  { rewrite Hw2. simpl.
    rewrite foldl_app, (user_callbacks_leave_loop bridge_cb (callbacks_ f)) by done.
    simpl. unfold bridge_effect. by rewrite bool_decide_eq_true_2. }
  exists f1, f2.
  exists (with_world {| awaitable_future := ACancelled; awaitable_callbacks := [];
                        ready := [] |} f2).
  split; [exact Hget|].
  split; [simpl; by rewrite Hready|].
  split.
  { unfold run_ready. simpl. rewrite Hready. simpl. exact Hc. }
  split; [exact Hs2|]. split; [exact Hci|].
  split; [by rewrite Hw2'|].
  split.
  { unfold run_ready. rewrite Hw2'. cbn [ready with_ready awaitable_future
      awaitable_callbacks].
    rewrite complete_awaitable_done by done. done. }
  done.
Qed.

End BridgeExtras.

Lemma get_await_result_terminal_witness :
  ∃ f1 f2, get_await_result 100 example_outcome example_completed = Returned f1
           ∧ run_ready 100 example_outcome f1 = Some f2
           ∧ awaitable_future (world f2) = AResult (PyOpaque 5).
Proof.
  destruct (get_await_result_terminal 100 example_outcome example_completed)
    as (f1 & Hget & _ & _ & _ & _ & Hval & _); [done | done |].
  destruct (Hval _ (PyOpaque 5) eq_refl eq_refl) as (f2 & Hrun & Ha).
  by exists f1, f2.
Defined.

Lemma awaitable_cancel_reaches_source_witness :
  ∃ f1 f2 f3,
    get_await_result 100 example_outcome example_source = Returned f1
    ∧ run_ready 100 example_outcome (with_world (aw_cancel (world f1)) f1)
      = Some f2
    ∧ slot f2 = Cancelled
    ∧ run_ready 100 example_outcome f2 = Some f3
    ∧ awaitable_future (world f3) = ACancelled.
Proof.
  destruct (awaitable_cancel_reaches_source 100 example_outcome example_source [])
    as (f1 & f2 & f3 & H1 & _ & H2 & H3 & _ & _ & H4 & _ & H5 & _).
  - reflexivity.
  - compute_done.
  - reflexivity.
  - apply Initialize_cancel_list.
  - by exists f1, f2, f3.
Defined.
